(** * The AWS auth backend identity configuration resource

    A shallow embedding of [vault/resource_aws_auth_backend_config_identity.go]
    and of the parts of its collaborators (Go's [strings], [regexp] and [fmt]
    packages, the plugin SDK's [schema.ResourceData], the Vault API client)
    that the resource's callbacks go through, followed by the duplicate alias
    scenario of the entity alias acceptance test.

    Go strings are byte sequences; they are embedded as [string], whose
    characters are 8-bit [ascii] values.  A callback is a function in a state
    monad over the resource data it was handed and the world outside it (the
    requests sent to the remote API, the log); a Go result [(v, err)] is a
    pair whose second component is [None] for the nil error. *)

From Stdlib Require Import Ascii.
From stdpp Require Import gmap strings list pretty.

Local Open Scope nat_scope.

(** ** Byte strings *)

Module GoString.

Definition len (s : string) : nat := String.length s.
#[global] Arguments len : simpl never.

(** The slice expression [s[lo:hi]]. *)
Definition slice (s : string) (lo hi : nat) : string :=
  String.substring lo (hi - lo) s.

(** [strings.HasPrefix] together with the remainder [s[len(p):]]. *)
Fixpoint strip_prefix (p s : string) : option string :=
  match p, s with
  | EmptyString, _ => Some s
  | String a p', String b s' =>
      if Ascii.eqb a b then strip_prefix p' s' else None
  | String _ _, EmptyString => None
  end.

(** [strings.IndexByte(cutset, c) >= 0] *)
Fixpoint in_cutset (cutset : string) (c : ascii) : bool :=
  match cutset with
  | EmptyString => false
  | String a cutset' => Ascii.eqb a c || in_cutset cutset' c
  end.

(** [strings.TrimLeft], for a cutset of ASCII bytes: drop bytes from the
    front for as long as they belong to the cutset. *)
Fixpoint TrimLeft (s cutset : string) : string :=
  match s with
  | EmptyString => EmptyString
  | String c s' => if in_cutset cutset c then TrimLeft s' cutset else s
  end.

(** [strings.TrimRight], for a cutset of ASCII bytes: drop bytes from the
    back for as long as they belong to the cutset. *)
Fixpoint TrimRight (s cutset : string) : string :=
  match s with
  | EmptyString => EmptyString
  | String c s' =>
      match TrimRight s' cutset with
      | EmptyString => if in_cutset cutset c then EmptyString else String c EmptyString
      | t => String c t
      end
  end.

(** [strings.Trim]: both ends. *)
Definition Trim (s cutset : string) : string :=
  TrimLeft (TrimRight s cutset) cutset.

(** The byte ['\n']. *)
Definition newline : ascii := Ascii.ascii_of_nat 10.

Fixpoint has_byte (c : ascii) (s : string) : bool :=
  match s with
  | EmptyString => false
  | String a s' => Ascii.eqb a c || has_byte c s'
  end.

End GoString.

(** ** Regular expressions

    The fragment of Go's [regexp/syntax] that the repository's patterns use,
    with the package's operator names.  Matching is the backtracking search
    that the [regexp] package documents as its meaning: among the matches
    that start leftmost, the one a backtracking search finds first.

    The matcher works on bytes.  Go decodes UTF-8 before matching, and [.]
    then consumes one code point; every other atom of the patterns below is
    ASCII, and an ASCII byte never occurs inside a multi-byte sequence, so
    code-point boundaries cannot be observed through these patterns. *)

Module Regexp.
Import GoString.

Inductive Regexp : Type :=
| OpEmptyMatch
| OpLiteral (lit : string)
| OpAnyCharNotNL
| OpBeginText
| OpEndText
| OpCapture (n : nat) (r : Regexp)
| OpStar (r : Regexp)
| OpPlus (r : Regexp)
| OpConcat (r1 r2 : Regexp).

(** [NumSubexp]: the number of parenthesised groups. *)
Fixpoint NumSubexp (r : Regexp) : nat :=
  match r with
  | OpCapture _ r1 => S (NumSubexp r1)
  | OpStar r1 | OpPlus r1 => NumSubexp r1
  | OpConcat r1 r2 => NumSubexp r1 + NumSubexp r2
  | _ => 0
  end.

(** The capture registers: entry [i] holds the bounds of group [i], entry
    [0] those of the whole match. *)
Definition Caps : Type := list (option (nat * nat)).

(** A thread of the search: the input that is left, the offset reached and
    the capture registers. *)
Definition Cont : Type := string → nat → Caps → option Caps.

Definition or_else (a b : option Caps) : option Caps :=
  match a with Some c => Some c | None => b end.

(** The greedy loop of [x+] over the matcher [body] of [x]: one iteration,
    then one more round for as long as the last one consumed input, and
    only then the rest of the pattern. *)
Fixpoint plus_loop (body : string → nat → Caps → Cont → option Caps) (k : Cont)
  (fuel : nat) (s : string) (pos : nat) (caps : Caps) : option Caps :=
  match fuel with
  | 0 => None
  | S fuel' =>
      body s pos caps (λ s' pos' caps',
        or_else
          (if Nat.ltb (len s') (len s) then plus_loop body k fuel' s' pos' caps' else None)
          (k s' pos' caps'))
  end.

(** The greedy loop of [x*]. *)
Fixpoint star_loop (body : string → nat → Caps → Cont → option Caps) (k : Cont)
  (fuel : nat) (s : string) (pos : nat) (caps : Caps) : option Caps :=
  match fuel with
  | 0 => k s pos caps
  | S fuel' =>
      or_else
        (body s pos caps (λ s' pos' caps',
           if Nat.ltb (len s') (len s) then star_loop body k fuel' s' pos' caps' else None))
        (k s pos caps)
  end.

(** [run r s pos caps k] matches [r] at offset [pos], where [s] is the input
    from [pos] on, and hands every way of matching it to [k] in priority
    order until [k] accepts.  An iteration of a loop that consumes nothing
    is not repeated; the loops carry fuel one above the length of the input
    left, which no sequence of consuming iterations exhausts. *)
Fixpoint run (r : Regexp) (s : string) (pos : nat) (caps : Caps) (k : Cont)
  {struct r} : option Caps :=
  match r with
  | OpEmptyMatch => k s pos caps
  | OpLiteral lit =>
      match strip_prefix lit s with
      | Some s' => k s' (pos + len lit) caps
      | None => None
      end
  | OpAnyCharNotNL =>
      match s with
      | String c s' => if Ascii.eqb c newline then None else k s' (S pos) caps
      | EmptyString => None
      end
  | OpBeginText => if Nat.eqb pos 0 then k s pos caps else None
  | OpEndText => match s with EmptyString => k s pos caps | _ => None end
  | OpCapture n r1 =>
      run r1 s pos caps (λ s' pos' caps', k s' pos' (<[n := Some (pos, pos')]> caps'))
  | OpConcat r1 r2 =>
      run r1 s pos caps (λ s' pos' caps', run r2 s' pos' caps' k)
  | OpPlus r1 => plus_loop (run r1) k (S (len s)) s pos caps
  | OpStar r1 => star_loop (run r1) k (S (len s)) s pos caps
  end.

(** The unanchored search: the leftmost offset at which [re] matches. *)
Fixpoint search (re : Regexp) (s : string) (pos : nat) : option Caps :=
  match run re s pos (replicate (S (NumSubexp re)) None)
          (λ _ pos' caps', Some (<[0 := Some (pos, pos')]> caps')) with
  | Some caps => Some caps
  | None =>
      match s with
      | String _ s' => search re s' (S pos)
      | EmptyString => None
      end
  end.

(** The method [MatchString] of a compiled pattern. *)
Definition MatchString (re : Regexp) (s : string) : bool :=
  match search re s 0 with Some _ => true | None => false end.

(** The method [FindStringSubmatch]: the text of the leftmost match and of
    each group, the empty string for a group that took no part; the nil
    slice, here the empty list, when there is no match. *)
Definition FindStringSubmatch (re : Regexp) (s : string) : list string :=
  match search re s 0 with
  | Some caps =>
      (λ c : option (nat * nat),
         match c with
         | Some (lo, hi) => slice s lo hi
         | None => EmptyString
         end) <$> caps
  | None => []
  end.

(** What it means for [r] to match, with no search order: from input [s] at
    offset [pos] with registers [caps], [r] can consume a prefix of [s] and
    leave [s'] at offset [pos'] with registers [caps'].  A loop only
    repeats after an iteration that consumed input. *)
Inductive matches : Regexp → string → nat → Caps → string → nat → Caps → Prop :=
| M_empty s pos caps :
    matches OpEmptyMatch s pos caps s pos caps
| M_literal lit s' pos caps :
    matches (OpLiteral lit) (lit +:+ s') pos caps s' (pos + len lit) caps
| M_any c s' pos caps :
    c ≠ newline →
    matches OpAnyCharNotNL (String c s') pos caps s' (S pos) caps
| M_begin s caps :
    matches OpBeginText s 0 caps s 0 caps
| M_end pos caps :
    matches OpEndText EmptyString pos caps EmptyString pos caps
| M_capture n r s pos caps s' pos' caps' :
    matches r s pos caps s' pos' caps' →
    matches (OpCapture n r) s pos caps s' pos' (<[n := Some (pos, pos')]> caps')
| M_concat r1 r2 s pos caps s1 pos1 caps1 s' pos' caps' :
    matches r1 s pos caps s1 pos1 caps1 →
    matches r2 s1 pos1 caps1 s' pos' caps' →
    matches (OpConcat r1 r2) s pos caps s' pos' caps'
| M_plus_last r s pos caps s' pos' caps' :
    matches r s pos caps s' pos' caps' →
    matches (OpPlus r) s pos caps s' pos' caps'
| M_plus_more r s pos caps s1 pos1 caps1 s' pos' caps' :
    matches r s pos caps s1 pos1 caps1 →
    len s1 < len s →
    matches (OpPlus r) s1 pos1 caps1 s' pos' caps' →
    matches (OpPlus r) s pos caps s' pos' caps'
| M_star_done r s pos caps :
    matches (OpStar r) s pos caps s pos caps
| M_star_more r s pos caps s1 pos1 caps1 s' pos' caps' :
    matches r s pos caps s1 pos1 caps1 →
    len s1 < len s →
    matches (OpStar r) s1 pos1 caps1 s' pos' caps' →
    matches (OpStar r) s pos caps s' pos' caps'.

(** A matcher that only looks at what its continuation answers. *)
Definition extensional (body : string → nat → Caps → Cont → option Caps) : Prop :=
  ∀ s pos caps k k',
    (∀ s' pos' caps', k s' pos' caps' = k' s' pos' caps') →
    body s pos caps k = body s pos caps k'.

(** Soundness of a matcher for [r]: an answer of the matcher is the answer
    of its continuation on some way of matching [r]. *)
Definition sound_for (r : Regexp) (body : string → nat → Caps → Cont → option Caps) : Prop :=
  ∀ s pos caps k res,
    body s pos caps k = Some res →
    ∃ s' pos' caps', matches r s pos caps s' pos' caps' ∧ k s' pos' caps' = Some res.

End Regexp.

Import GoString Regexp.

(** ** Errors

    [fmt.Errorf] is kept symbolic: an error is its format string together with
    the operands, each tagged with the verb that prints it. *)

#[local] Set Warnings "-register-all".

Inductive Arg (E : Type) : Type :=
| ArgQ (s : string)   (* %q *)
| ArgS (e : E)        (* %s *)
| ArgD (n : nat).     (* %d *)
Arguments ArgQ {E} s.
Arguments ArgS {E} e.
Arguments ArgD {E} n.

Inductive error : Type :=
| Errorf (format : string) (args : list (Arg error)).

(** ** The path codec *)

(** [regexp.MustCompile("^auth/(.+)/config/identity$")] *)
Definition awsAuthBackendConfigIdentityBackendFromPathRegex : Regexp :=
  OpConcat OpBeginText
    (OpConcat (OpLiteral "auth/")
       (OpConcat (OpCapture 1 (OpPlus OpAnyCharNotNL))
          (OpConcat (OpLiteral "/config/identity") OpEndText))).

Definition awsAuthBackendConfigIdentityPath (backend : string) : string :=
  "auth/" +:+ Trim backend "/" +:+ "/config/identity".

Definition awsAuthBackendConfigIdentityBackendFromPath (path : string)
  : string * option error :=
  if negb (MatchString awsAuthBackendConfigIdentityBackendFromPathRegex path) then
    ("", Some (Errorf "no backend found" []))
  else
    let res := FindStringSubmatch awsAuthBackendConfigIdentityBackendFromPathRegex path in
    if negb (Nat.eqb (length res) 2) then
      ("", Some (Errorf "unexpected number of matches (%d) for backend" [ArgD (length res)]))
    else
      (nth 1 res "", None).

(** ** Values and the resource data

    [interface{}] values as they occur in the attributes and in the payloads:
    strings, string arrays (a nil slice is the empty list), sets of strings
    in the order [set.List()] gives them, and the nil interface. *)

Inductive Value : Type :=
| VNil
| VString (s : string)
| VStrings (l : list string)
| VSet (l : list string).

Inductive ValueType : Type := TypeString | TypeSet.

(** A field declaration of [schema.Schema]; the description texts are left
    out. *)
Record FieldSchema : Type := {
  Type_ : ValueType;
  Optional : bool;
  Default : option Value;
  ForceNew : bool;
  StringInSlice : option (list string);
  StateFunc : option (string → string)
}.

Definition awsAuthBackendConfigIdentitySchema : gmap string FieldSchema :=
  {[ "iam_alias" :=
       {| Type_ := TypeString; Optional := true; Default := Some (VString "role_id");
          ForceNew := false;
          StringInSlice := Some ["role_id"; "unique_id"; "full_arn"];
          StateFunc := None |};
     "iam_metadata" :=
       {| Type_ := TypeSet; Optional := true; Default := None; ForceNew := false;
          StringInSlice := None; StateFunc := None |};
     "ec2_alias" :=
       {| Type_ := TypeString; Optional := true; Default := Some (VString "role_id");
          ForceNew := false;
          StringInSlice := Some ["role_id"; "instance_id"; "image_id"];
          StateFunc := None |};
     "ec2_metadata" :=
       {| Type_ := TypeSet; Optional := true; Default := None; ForceNew := false;
          StringInSlice := None; StateFunc := None |};
     "backend" :=
       {| Type_ := TypeString; Optional := true; Default := Some (VString "aws");
          ForceNew := true; StringInSlice := None;
          (* standardise on no beginning or trailing slashes *)
          StateFunc := Some (λ v, Trim v "/") |} ]}.

(** Modelled from the spec: [schema.ResourceData] belongs to the plugin SDK.
    It is the stored identifier and the attributes that are set, after the
    framework has applied the declared defaults; [Get] answers a value of the
    declared type, the zero value for an attribute that is not set (or that
    holds a value of another type, which the framework never hands over);
    [GetOk] tracks presence: it also says whether the attribute is set to
    something other than the zero value; [Set] stores a value verbatim and
    treats nil as absent. *)
Record ResourceData : Type := {
  id : string;
  attrs : gmap string Value
}.

Definition zero_value (t : ValueType) : Value :=
  match t with TypeString => VString "" | TypeSet => VSet [] end.

Definition is_zero (v : Value) : bool :=
  match v with
  | VNil | VString EmptyString | VStrings [] | VSet [] => true
  | _ => false
  end.

Definition has_type (t : ValueType) (v : Value) : bool :=
  match t, v with
  | TypeString, VString _ | TypeSet, VSet _ => true
  | _, _ => false
  end.

Definition Get (key : string) (d : ResourceData) : Value :=
  match awsAuthBackendConfigIdentitySchema !! key with
  | Some f =>
      match attrs d !! key with
      | Some v => if has_type (Type_ f) v then v else zero_value (Type_ f)
      | None => zero_value (Type_ f)
      end
  | None => VNil
  end.

Definition GetOk (key : string) (d : ResourceData) : Value * bool :=
  let v := Get key d in
  (v, bool_decide (is_Some (attrs d !! key)) && negb (is_zero v)).

(** The type assertion [v.(string)]; [Get] answers a string for every
    attribute declared [TypeString], so that the assertion cannot fail
    where the resource uses it. *)
Definition as_string (v : Value) : string :=
  match v with VString s => s | _ => "" end.

(** Modelled from the spec: [util.TerraformSetToStringArray] is not among the
    sources; list-valued fields are sent as string arrays. *)
Definition TerraformSetToStringArray (v : Value) : list string :=
  match v with VSet l => l | _ => [] end.

(** ** The remote API client

    Modelled from the spec: the client of the Vault API is an external
    collaborator providing [Read(path) -> (payload-or-nil, error)] and
    [Write(path, payload) -> (response, error)].  What the remote end
    answers is left open: a client is any pair of functions from the calls
    issued so far and the present request to the reply. *)

Record Secret : Type := { Data : gmap string Value }.

Inductive Call : Type :=
| ReadCall (path : string)
| WriteCall (path : string) (data : gmap string Value).

Record Client : Type := {
  read_reply : list Call → string → option Secret * option error;
  write_reply : list Call → string → gmap string Value → option Secret * option error
}.

(** What a callback can change apart from its resource data: the requests
    sent to the remote API and the lines written to the log. *)
Record World : Type := {
  calls : list Call;
  logs : list (string * list (Arg error))
}.

(** ** The state monad of the callbacks *)

Definition Op (A : Type) : Type := ResourceData * World → A * (ResourceData * World).

#[global] Instance Op_ret : MRet Op := λ A a st, (a, st).
#[global] Instance Op_bind : MBind Op := λ A B f m st, let '(a, st') := m st in f a st'.

Definition Id : Op string := λ '(d, w), (id d, (d, w)).

Definition SetId (v : string) : Op unit :=
  λ '(d, w), (tt, ({| id := v; attrs := attrs d |}, w)).

Definition get (key : string) : Op Value := λ '(d, w), (Get key d, (d, w)).

Definition getOk (key : string) : Op (Value * bool) := λ '(d, w), (GetOk key d, (d, w)).

Definition Set_ (key : string) (v : Value) : Op unit :=
  λ '(d, w),
    (tt, ({| id := id d;
             attrs := match v with VNil => delete key (attrs d) | _ => <[key := v]> (attrs d) end |},
          w)).

Definition logPrintf (format : string) (args : list (Arg error)) : Op unit :=
  λ '(d, w), (tt, (d, {| calls := calls w; logs := logs w ++ [(format, args)] |})).

Definition LogicalRead (client : Client) (path : string) : Op (option Secret * option error) :=
  λ '(d, w),
    (read_reply client (calls w) path,
     (d, {| calls := calls w ++ [ReadCall path]; logs := logs w |})).

Definition LogicalWrite (client : Client) (path : string) (data : gmap string Value)
  : Op (option Secret * option error) :=
  λ '(d, w),
    (write_reply client (calls w) path data,
     (d, {| calls := calls w ++ [WriteCall path data]; logs := logs w |})).

(** [resp.Data[key]]: the nil interface for a key that is missing. *)
Definition index (data : gmap string Value) (key : string) : Value :=
  default VNil (data !! key).

(** ** The callbacks *)

Definition awsAuthBackendConfigIdentityRead (client : Client) : Op (option error) :=
  path ← Id;
  let '(backend, err) := awsAuthBackendConfigIdentityBackendFromPath path in
  match err with
  | Some err =>
      mret (Some (Errorf "invalid path %q for AWS auth identity config:  %s"
                    [ArgQ path; ArgS err]))
  | None =>
      logPrintf "[DEBUG] Reading identity config %q from AWS auth backend" [ArgQ path];;
      '(resp, err) ← LogicalRead client path;
      match err with
      | Some err =>
          mret (Some (Errorf "error reading AWS auth backend identity config %q: %s"
                        [ArgQ path; ArgS err]))
      | None =>
          logPrintf "[DEBUG] Read identity config %q from AWS auth backend" [ArgQ path];;
          match resp with
          | None =>
              logPrintf
                "[WARN] AWS auth backend identity config %q not found, removing it from state"
                [ArgQ path];;
              SetId "";;
              mret None
          | Some resp =>
              Set_ "iam_alias" (index (Data resp) "iam_alias");;
              Set_ "iam_metadata" (index (Data resp) "iam_metadata");;
              Set_ "ec2_alias" (index (Data resp) "ec2_alias");;
              Set_ "ec2_metadata" (index (Data resp) "ec2_metadata");;
              Set_ "backend" (VString backend);;
              mret None
          end
      end
  end.

(** The first half of [awsAuthBackendConfigIdentityWrite], up to the map
    literal: the path and the payload gathered from the configuration. *)
Definition awsAuthBackendConfigIdentityWrite_data : Op (string * gmap string Value) :=
  backend ← get "backend";
  let backend := as_string backend in
  iamAlias ← get "iam_alias";
  let iamAlias := as_string iamAlias in
  ec2Alias ← get "ec2_alias";
  let ec2Alias := as_string ec2Alias in
  '(iamMetadataConfig, ok) ← getOk "iam_metadata";
  let iamMetadata : list string :=
    if (ok : bool) then TerraformSetToStringArray iamMetadataConfig else [] in
  '(ec2MetadataConfig, ok) ← getOk "ec2_metadata";
  let ec2Metadata : list string :=
    if (ok : bool) then TerraformSetToStringArray ec2MetadataConfig else [] in
  let path := awsAuthBackendConfigIdentityPath backend in
  let data : gmap string Value :=
    {[ "iam_alias" := VString iamAlias;
       "iam_metadata" := VStrings iamMetadata;
       "ec2_alias" := VString ec2Alias;
       "ec2_metadata" := VStrings ec2Metadata ]} in
  mret (path, data).

Definition awsAuthBackendConfigIdentityWrite (client : Client) : Op (option error) :=
  '(path, data) ← awsAuthBackendConfigIdentityWrite_data;
  logPrintf "[DEBUG] Writing AWS identity config to %q" [ArgQ path];;
  '(_, err) ← LogicalWrite client path data;
  match err with
  | Some err =>
      mret (Some (Errorf "error configuring AWS auth identity config %q: %s"
                    [ArgQ path; ArgS err]))
  | None =>
      SetId path;;
      logPrintf "[DEBUG] Wrote AWS identity config to %q" [ArgQ path];;
      awsAuthBackendConfigIdentityRead client
  end.

Definition awsAuthBackendConfigIdentityDelete (client : Client) : Op (option error) :=
  logPrintf "[DEBUG] Deleting AWS identity config from state file" [];;
  mret None.

Definition awsAuthBackendConfigIdentityExists (client : Client) : Op (bool * option error) :=
  path ← Id;
  logPrintf "[DEBUG] Checking if identity config %q exists in AWS auth backend" [ArgQ path];;
  '(resp, err) ← LogicalRead client path;
  match err with
  | Some err =>
      mret (true,
            Some (Errorf
                    "error checking for existence of AWS auth backend identity config %q: %s"
                    [ArgQ path; ArgS err]))
  | None =>
      logPrintf "[DEBUG] Checked if identity config %q exists in AWS auth backend" [ArgQ path];;
      mret (bool_decide (is_Some resp), None)
  end.

(** [schema.Resource]: the callbacks the framework dispatches to. *)
Record Resource : Type := {
  Create : Client → Op (option error);
  Update : Client → Op (option error);
  Read : Client → Op (option error);
  Delete : Client → Op (option error);
  Schema : gmap string FieldSchema
}.

Definition awsAuthBackendConfigIdentityResource : Resource :=
  {| Create := awsAuthBackendConfigIdentityWrite;
     Update := awsAuthBackendConfigIdentityWrite;
     Read := awsAuthBackendConfigIdentityRead;
     Delete := awsAuthBackendConfigIdentityDelete;
     Schema := awsAuthBackendConfigIdentitySchema |}.

(** ** Conforming paths *)

(** [path] is the identity configuration path of the backend [backend]: the
    shape the pattern [^auth/(.+)/config/identity$] describes. *)
Definition conforms (path backend : string) : Prop :=
  path = "auth/" +:+ backend +:+ "/config/identity"
  ∧ backend ≠ "" ∧ has_byte newline backend = false.

(** The registers the pattern leaves on the path of [backend]. *)
Definition path_caps (path backend : string) : Caps :=
  [Some (0, len path); Some (5, 5 + len backend)].

(** ** Error texts

    [err.Error()] for the symbolic errors.  The verb [%q] prints its operand
    through [strconv.Quote], which is taken as a parameter: all that is used
    of it is that a quoted string holds no raw newline. *)

Section rendering.
Variable Quote : string → string.

(** [fmt.Sprintf] over operands that are already printed: each verb takes
    the next operand, [%%] prints a percent sign. *)
Fixpoint Sprintf (format : string) (args : list string) : string :=
  match format with
  | EmptyString => EmptyString
  | String c rest =>
      if Ascii.eqb c "%" then
        match rest with
        | String v rest' =>
            if Ascii.eqb v "%" then String v (Sprintf rest' args)
            else
              match args with
              | a :: args' => a +:+ Sprintf rest' args'
              | [] => "%!" +:+ String v ("(MISSING)" +:+ Sprintf rest' [])
              end
        | EmptyString => "%!(NOVERB)"
        end
      else String c (Sprintf rest args)
  end.

Fixpoint Error (e : error) : string :=
  match e with
  | Errorf format args =>
      Sprintf format
        ((λ a, match a with
               | ArgQ s => Quote s
               | ArgS e' => Error e'
               | ArgD n => pretty n
               end) <$> args)
  end.

End rendering.

(** A quoting function to run the texts with: it wraps the string in quote
    characters and escapes the newline, as [strconv.Quote] does on a string of
    letters, digits and newlines. *)
Fixpoint escape_newlines (s : string) : string :=
  match s with
  | EmptyString => EmptyString
  | String c s' =>
      if Ascii.eqb c newline
      then String (Ascii.ascii_of_nat 92) (String "n" (escape_newlines s'))
      else String c (escape_newlines s')
  end.

Definition quote_simple (s : string) : string :=
  String (Ascii.ascii_of_nat 34) (escape_newlines s +:+ String (Ascii.ascii_of_nat 34) "").

(** ** The entity alias resource

    Modelled from the spec: the adapter of the entity alias resource is not
    among the sources, only its acceptance test is.  An alias binds a name
    within a mount to one entity; the remote store keeps the aliases under
    their identifiers; creating an alias whose name and mount are already
    taken fails with an error saying that the alias already exists and may be
    imported, and changes nothing. *)

Record EntityAlias : Type := {
  alias_name : string;
  alias_mount_accessor : string;
  alias_canonical_id : string
}.

Definition same_alias (a b : EntityAlias) : bool :=
  bool_decide (alias_name a = alias_name b)
  && bool_decide (alias_mount_accessor a = alias_mount_accessor b).

(** The identifier under which the remote store holds an alias with the name
    and mount of [a]. *)
Fixpoint findAliasID (a : EntityAlias) (store : list (string * EntityAlias)) : option string :=
  match store with
  | [] => None
  | (aliasID, b) :: store' => if same_alias a b then Some aliasID else findAliasID a store'
  end.

(** Modelled from the spec: the Create callback of the entity alias resource,
    run on a resource that is not tracked yet; [newID] is the identifier the
    remote end gives to a new alias. *)
Definition identityEntityAliasCreate (newID : string) (a : EntityAlias)
  (st : string * list (string * EntityAlias))
  : option error * (string * list (string * EntityAlias)) :=
  let '(localID, store) := st in
  match findAliasID a store with
  | Some aliasID =>
      (Some (Errorf "IdentityEntityAlias %q already exists. Alias resource ID %q may be imported."
               [ArgQ (alias_name a); ArgQ aliasID]),
       st)
  | None => (None, (newID, store ++ [(newID, a)]))
  end.

(** The pattern that the acceptance test expects the error of its second step
    to match: [IdentityEntityAlias.*already exists.*may be imported]. *)
Definition duplicateAliasExpectError : Regexp :=
  OpConcat (OpLiteral "IdentityEntityAlias")
    (OpConcat (OpStar OpAnyCharNotNL)
       (OpConcat (OpLiteral "already exists")
          (OpConcat (OpStar OpAnyCharNotNL) (OpLiteral "may be imported")))).

(** ** Sample inputs *)

Definition world0 : World := {| calls := []; logs := [] |}.

(** A client whose remote end holds nothing and accepts every write. *)
Definition client_empty : Client :=
  {| read_reply := λ _ _, (None, None); write_reply := λ _ _ _, (None, None) |}.

(** A client whose transport fails. *)
Definition client_down : Client :=
  {| read_reply := λ _ _, (None, Some (Errorf "connection refused" []));
     write_reply := λ _ _ _, (None, Some (Errorf "connection refused" [])) |}.

(** A configuration with the defaults in place and no metadata set. *)
Definition data_defaults (id : string) : ResourceData :=
  {| id := id;
     attrs := {[ "backend" := VString "aws"; "iam_alias" := VString "role_id";
                 "ec2_alias" := VString "role_id" ]} |}.

(** ** First and last bytes *)

(** [s[0]], when there is one. *)
Definition first_byte (s : string) : option ascii :=
  match s with
  | EmptyString => None
  | String c _ => Some c
  end.

(** [s[len(s)-1]], when there is one. *)
Fixpoint last_byte (s : string) : option ascii :=
  match s with
  | EmptyString => None
  | String c EmptyString => Some c
  | String _ s' => last_byte s'
  end.

(** ** The destroy check of the entity alias acceptance test

    [testAccCheckIdentityEntityAliasDestroy] walks over the resources of the
    root module of the final state.  [Resources] is a Go map, whose order of
    iteration is left open: the embedding takes the resources as the list
    that the [range] statement goes through.  [identityEntityAliasIDPath] is
    not among the sources and is a parameter. *)

Record ResourceState : Type := {
  rs_Type : string;
  Primary_ID : string
}.

Section destroy_check.
Variable identityEntityAliasIDPath : string → string.

Fixpoint testAccCheckIdentityEntityAliasDestroy (client : Client)
  (resources : list ResourceState) (w : World) : option error * World :=
  match resources with
  | [] => (None, w)
  | rs :: resources' =>
      if negb (String.eqb (rs_Type rs) "vault_identity_entity_alias") then
        testAccCheckIdentityEntityAliasDestroy client resources' w
      else
        let path := identityEntityAliasIDPath (Primary_ID rs) in
        let '(secret, err) := read_reply client (calls w) path in
        let w' := {| calls := calls w ++ [ReadCall path]; logs := logs w |} in
        match err with
        | Some err =>
            (Some (Errorf "error checking for identity entity %q: %s"
                     [ArgQ (Primary_ID rs); ArgS err]),
             w')
        | None =>
            match secret with
            | Some _ =>
                (Some (Errorf "identity entity role %q still exists" [ArgQ (Primary_ID rs)]),
                 w')
            | None => testAccCheckIdentityEntityAliasDestroy client resources' w'
            end
        end
  end.

End destroy_check.

(** The alias resources among [resources]. *)
Definition is_alias (rs : ResourceState) : bool :=
  String.eqb (rs_Type rs) "vault_identity_entity_alias".

(** A client answers from a fixed remote state when its replies to reads do
    not depend on the requests sent before. *)
Definition read_stable (client : Client) : Prop :=
  ∀ h path, read_reply client h path = read_reply client [] path.

(** The world after [awsAuthBackendConfigIdentityRead] has read [path] and
    got an answer with no error. *)
Definition world_read_ok (path : string) (w : World) : World :=
  {| calls := calls w ++ [ReadCall path];
     logs := (logs w
              ++ [("[DEBUG] Reading identity config %q from AWS auth backend", [ArgQ path])])
             ++ [("[DEBUG] Read identity config %q from AWS auth backend", [ArgQ path])] |}.

(** A client whose remote end holds an identity configuration and accepts
    every write. *)
Definition client_found : Client :=
  {| read_reply := λ _ _,
       (Some {| Data := {[ "iam_alias" := VString "unique_id";
                           "iam_metadata" := VStrings ["account_id"];
                           "ec2_alias" := VString "role_id";
                           "backend" := VString "elsewhere" ]} |},
        None);
     write_reply := λ _ _ _, (None, None) |}.

(** The world after [awsAuthBackendConfigIdentityWrite] has sent its write,
    and after the write has been acknowledged. *)
Definition world_write_sent (path : string) (data : gmap string Value) (w : World) : World :=
  {| calls := calls w ++ [WriteCall path data];
     logs := logs w ++ [("[DEBUG] Writing AWS identity config to %q", [ArgQ path])] |}.

Definition world_written (path : string) (data : gmap string Value) (w : World) : World :=
  {| calls := calls (world_write_sent path data w);
     logs := logs (world_write_sent path data w)
             ++ [("[DEBUG] Wrote AWS identity config to %q", [ArgQ path])] |}.

(** A configuration whose backend is a lone slash. *)
Definition data_slash : ResourceData :=
  {| id := "";
     attrs := {[ "backend" := VString "/"; "iam_alias" := VString "role_id";
                 "ec2_alias" := VString "role_id" ]} |}.

(** [s] is made of bytes of [cutset] only. *)
Fixpoint only_bytes (cutset s : string) : bool :=
  match s with
  | EmptyString => true
  | String c s' => in_cutset cutset c && only_bytes cutset s'
  end.

(** The path of an entity alias, for the samples: the parameter of the
    destroy check is free, and this is one choice of it. *)
Definition sample_alias_path (aliasID : string) : string :=
  "identity/entity-alias/id/" +:+ aliasID.

(** A final state with an entity, an auth backend and an alias. *)
Definition sample_resources : list ResourceState :=
  [ {| rs_Type := "vault_identity_entity"; Primary_ID := "entity-1" |};
    {| rs_Type := "vault_auth_backend"; Primary_ID := "githubA-1" |};
    {| rs_Type := "vault_identity_entity_alias"; Primary_ID := "alias-1" |} ].

(** * Properties *)

(** ** Byte strings *)

Section strings.
Implicit Types s t u p : string.

Lemma str_app_cons c s t : String c s +:+ t = String c (s +:+ t).
Proof. reflexivity. Qed.

Lemma str_app_empty_l s : "" +:+ s = s.
Proof. reflexivity. Qed.

Lemma str_app_empty_r s : s +:+ "" = s.
Proof. induction s as [|c s IH]; [done|]. by rewrite str_app_cons, IH. Qed.

Lemma str_app_assoc s t u : (s +:+ t) +:+ u = s +:+ t +:+ u.
Proof. induction s as [|c s IH]; [done|]. by rewrite !str_app_cons, IH. Qed.

Lemma len_app s t : len (s +:+ t) = len s + len t.
Proof.
  unfold len. induction s as [|c s IH]; [done|].
  rewrite str_app_cons. cbn. by rewrite IH.
Qed.

Lemma len_cons c s : len (String c s) = S (len s).
Proof. reflexivity. Qed.

Lemma len_zero s : len s = 0 → s = "".
Proof. by destruct s. Qed.

Lemma str_app_inv_tail s t u : s +:+ u = t +:+ u → s = t.
Proof.
  revert t. induction s as [|c s IH]; intros [|c' t] H; [done| | |].
  - apply (f_equal len) in H.
    rewrite str_app_cons, str_app_empty_l, len_cons, len_app in H. lia.
  - apply (f_equal len) in H.
    rewrite str_app_cons, str_app_empty_l, len_cons, len_app in H. lia.
  - rewrite !str_app_cons in H. injection H as -> H. f_equal. by apply IH.
Qed.

Lemma strip_prefix_app p s : strip_prefix p (p +:+ s) = Some s.
Proof.
  induction p as [|c p IH]; [done|]. rewrite str_app_cons. cbn.
  by rewrite Ascii.eqb_refl.
Qed.

Lemma strip_prefix_Some p s s' : strip_prefix p s = Some s' → s = p +:+ s'.
Proof.
  revert s. induction p as [|c p IH]; intros s H; cbn in H.
  - destruct s; by injection H as <-.
  - destruct s as [|c' s]; [done|].
    destruct (Ascii.eqb_spec c c') as [->|]; [|done].
    rewrite str_app_cons. f_equal. by apply IH.
Qed.

Lemma substring_app_l s t : String.substring 0 (len s) (s +:+ t) = s.
Proof.
  induction s as [|c s IH]; cbn.
  - by destruct t.
  - rewrite str_app_cons. cbn. f_equal. apply IH.
Qed.

Lemma substring_skip p n s : String.substring (len p) n (p +:+ s) = String.substring 0 n s.
Proof. induction p as [|c p IH]; [done|]. rewrite str_app_cons. cbn. apply IH. Qed.

Lemma slice_middle p s t : slice (p +:+ s +:+ t) (len p) (len p + len s) = s.
Proof.
  unfold slice. replace (len p + len s - len p) with (len s) by lia.
  rewrite substring_skip. apply substring_app_l.
Qed.

Lemma slice_all s : slice s 0 (len s) = s.
Proof.
  unfold slice. rewrite Nat.sub_0_r. rewrite <-(str_app_empty_r s) at 2.
  apply substring_app_l.
Qed.

Lemma has_byte_app c s t : has_byte c (s +:+ t) = has_byte c s || has_byte c t.
Proof.
  induction s as [|a s IH]; [done|]. rewrite str_app_cons. cbn.
  by rewrite IH, orb_assoc.
Qed.

End strings.

(** ** The matcher against the matching relation *)

Section matcher.
Implicit Types (r : Regexp) (s : string) (pos : nat) (caps : Caps) (k : Cont).

Lemma plus_loop_ext body k k' fuel s pos caps :
  extensional body →
  (∀ s' pos' caps', k s' pos' caps' = k' s' pos' caps') →
  plus_loop body k fuel s pos caps = plus_loop body k' fuel s pos caps.
Proof.
  intros Hbody Hk. revert s pos caps.
  induction fuel as [|fuel IH]; intros s pos caps; [done|].
  cbn [plus_loop]. apply Hbody. intros s' pos' caps'. rewrite Hk.
  destruct (len s' <? len s); [by rewrite IH | done].
Qed.

Lemma star_loop_ext body k k' fuel s pos caps :
  extensional body →
  (∀ s' pos' caps', k s' pos' caps' = k' s' pos' caps') →
  star_loop body k fuel s pos caps = star_loop body k' fuel s pos caps.
Proof.
  intros Hbody Hk. revert s pos caps.
  induction fuel as [|fuel IH]; intros s pos caps; cbn [star_loop]; [apply Hk|].
  rewrite Hk. f_equal. apply Hbody. intros s' pos' caps'.
  destruct (len s' <? len s); [by rewrite IH | done].
Qed.

Lemma run_ext r : extensional (run r).
Proof.
  induction r as [| lit | | | | n r IH | r IH | r IH | r1 IH1 r2 IH2];
    intros s pos caps k k' Hk; cbn [run].
  - apply Hk.
  - destruct (strip_prefix lit s); [apply Hk | done].
  - destruct s as [|c s]; [done|]. destruct (Ascii.eqb c newline); [done | apply Hk].
  - destruct (pos =? 0); [apply Hk | done].
  - destruct s; [apply Hk | done].
  - apply IH. intros. apply Hk.
  - by apply star_loop_ext.
  - by apply plus_loop_ext.
  - apply IH1. intros. by apply IH2.
Qed.

(** Fuel above the length of the input is never used up. *)
Lemma plus_loop_fuel body k f1 f2 s pos caps :
  extensional body → len s < f1 → len s < f2 →
  plus_loop body k f1 s pos caps = plus_loop body k f2 s pos caps.
Proof.
  intros Hbody. revert f2 s pos caps.
  induction f1 as [|f1 IH]; intros [|f2] s pos caps H1 H2; [lia..|].
  cbn [plus_loop]. apply Hbody. intros s' pos' caps'.
  destruct (Nat.ltb_spec (len s') (len s)); [|done].
  rewrite (IH f2); [done | lia..].
Qed.

Lemma star_loop_fuel body k f1 f2 s pos caps :
  extensional body → len s < f1 → len s < f2 →
  star_loop body k f1 s pos caps = star_loop body k f2 s pos caps.
Proof.
  intros Hbody. revert f2 s pos caps.
  induction f1 as [|f1 IH]; intros [|f2] s pos caps H1 H2; [lia..|].
  cbn [star_loop]. f_equal. apply Hbody. intros s' pos' caps'.
  destruct (Nat.ltb_spec (len s') (len s)); [|done].
  rewrite (IH f2); [done | lia..].
Qed.

Lemma or_else_Some a b res :
  or_else a b = Some res → a = Some res ∨ (a = None ∧ b = Some res).
Proof. destruct a; cbn; auto. Qed.

Lemma or_else_is_Some_l a b : is_Some a → is_Some (or_else a b).
Proof. by intros [c ->]. Qed.

Lemma or_else_is_Some_r a b : is_Some b → is_Some (or_else a b).
Proof. destruct a; cbn; eauto. Qed.

Lemma plus_loop_sound r body k fuel :
  sound_for r body →
  ∀ s pos caps res,
    plus_loop body k fuel s pos caps = Some res →
    ∃ s' pos' caps', matches (OpPlus r) s pos caps s' pos' caps' ∧ k s' pos' caps' = Some res.
Proof.
  intros Hbody. induction fuel as [|fuel IH]; intros s pos caps res H; [done|].
  cbn [plus_loop] in H. apply Hbody in H as (s1 & pos1 & caps1 & Hm & H).
  apply or_else_Some in H as [H | [_ H]].
  - destruct (Nat.ltb_spec (len s1) (len s)); [|done].
    apply IH in H as (s' & pos' & caps' & Hm' & H).
    exists s', pos', caps'. split; [|done]. by eapply M_plus_more.
  - exists s1, pos1, caps1. split; [|done]. by apply M_plus_last.
Qed.

Lemma star_loop_sound r body k fuel :
  sound_for r body →
  ∀ s pos caps res,
    star_loop body k fuel s pos caps = Some res →
    ∃ s' pos' caps', matches (OpStar r) s pos caps s' pos' caps' ∧ k s' pos' caps' = Some res.
Proof.
  intros Hbody. induction fuel as [|fuel IH]; intros s pos caps res H; cbn [star_loop] in H.
  - exists s, pos, caps. split; [apply M_star_done | done].
  - apply or_else_Some in H as [H | [_ H]].
    + apply Hbody in H as (s1 & pos1 & caps1 & Hm & H).
      destruct (Nat.ltb_spec (len s1) (len s)); [|done].
      apply IH in H as (s' & pos' & caps' & Hm' & H).
      exists s', pos', caps'. split; [|done]. by eapply M_star_more.
    + exists s, pos, caps. split; [apply M_star_done | done].
Qed.

Lemma run_sound r : sound_for r (run r).
Proof.
  induction r as [| lit | | | | n r IH | r IH | r IH | r1 IH1 r2 IH2];
    intros s pos caps k res H; cbn [run] in H.
  - exists s, pos, caps. split; [constructor | done].
  - destruct (strip_prefix lit s) as [s'|] eqn:Hp; [|done].
    apply strip_prefix_Some in Hp as ->.
    eexists _, _, _. split; [constructor | done].
  - destruct s as [|c s]; [done|].
    destruct (Ascii.eqb_spec c newline); [done|].
    eexists _, _, _. split; [by constructor | done].
  - destruct (Nat.eqb_spec pos 0) as [->|]; [|done].
    eexists _, _, _. split; [constructor | done].
  - destruct s; [|done]. eexists _, _, _. split; [constructor | done].
  - apply IH in H as (s' & pos' & caps' & Hm & H).
    eexists _, _, _. split; [by constructor | done].
  - by eapply star_loop_sound.
  - by eapply plus_loop_sound.
  - apply IH1 in H as (s1 & pos1 & caps1 & Hm1 & H).
    apply IH2 in H as (s' & pos' & caps' & Hm2 & H).
    eexists _, _, _. split; [by econstructor | done].
Qed.

(** Completeness: when some way of matching is accepted by the
    continuation, the matcher answers. *)
Lemma run_complete r s pos caps s' pos' caps' :
  matches r s pos caps s' pos' caps' →
  ∀ k, is_Some (k s' pos' caps') → is_Some (run r s pos caps k).
Proof.
  induction 1 as
    [ s pos caps | lit s' pos caps | c s' pos caps Hc | s caps | pos caps
    | n r s pos caps s' pos' caps' _ IH
    | r1 r2 s pos caps s1 pos1 caps1 s' pos' caps' _ IH1 _ IH2
    | r s pos caps s' pos' caps' _ IH
    | r s pos caps s1 pos1 caps1 s' pos' caps' _ IH1 Hlt _ IH2
    | r s pos caps
    | r s pos caps s1 pos1 caps1 s' pos' caps' _ IH1 Hlt _ IH2 ];
    intros k Hk; cbn [run].
  - done.
  - by rewrite strip_prefix_app.
  - by destruct (Ascii.eqb_spec c newline).
  - done.
  - done.
  - by apply IH.
  - apply IH1. by apply IH2.
  - apply IH. by apply or_else_is_Some_r.
  - apply IH1. apply or_else_is_Some_l.
    destruct (Nat.ltb_spec (len s1) (len s)); [|lia].
    rewrite (plus_loop_fuel _ _ _ (S (len s1))); [by apply IH2 | apply run_ext | lia..].
  - by apply or_else_is_Some_r.
  - apply or_else_is_Some_l. apply IH1.
    destruct (Nat.ltb_spec (len s1) (len s)); [|lia].
    rewrite (star_loop_fuel _ _ _ (S (len s1))); [by apply IH2 | apply run_ext | lia..].
Qed.

End matcher.

(** ** The path pattern *)

Section path_pattern.
Implicit Types (path backend s x : string) (pos : nat) (caps : Caps).

Local Abbreviation re := awsAuthBackendConfigIdentityBackendFromPathRegex.

(** What [.+] matches: a non-empty run of bytes other than the newline. *)
Lemma matches_any_plus_inv r s pos caps s' pos' caps' :
  matches r s pos caps s' pos' caps' →
  r = OpPlus OpAnyCharNotNL →
  ∃ x, s = x +:+ s' ∧ x ≠ "" ∧ has_byte newline x = false
       ∧ pos' = pos + len x ∧ caps' = caps.
Proof.
  induction 1 as
    [ | | | | | |
    | r s pos caps s' pos' caps' Hm _
    | r s pos caps s1 pos1 caps1 s' pos' caps' Hm _ _ _ IH
    | | ]; intros Hr; try discriminate Hr.
  - injection Hr as ->. inversion Hm as [ | | c ? ? ? Hc | | | | | | | | ]; subst.
    exists (String c ""). split_and!; [done | done | | unfold len; cbn; lia | done].
    cbn. by destruct (Ascii.eqb_spec c newline).
  - injection Hr as ->. destruct (IH eq_refl) as (x & -> & _ & Hx & -> & ->).
    inversion Hm as [ | | c ? ? ? Hc | | | | | | | | ]; subst.
    exists (String c x). split_and!; [done | done | | rewrite len_cons; lia | done].
    cbn. by destruct (Ascii.eqb_spec c newline).
Qed.

Lemma matches_any_plus x s' pos caps :
  x ≠ "" → has_byte newline x = false →
  matches (OpPlus OpAnyCharNotNL) (x +:+ s') pos caps s' (pos + len x) caps.
Proof.
  revert pos. induction x as [|c x IH]; intros pos Hne Hx; [done|].
  cbn in Hx. apply orb_false_elim in Hx as [Hc Hx].
  assert (c ≠ newline) by (by destruct (Ascii.eqb_spec c newline)).
  rewrite str_app_cons, len_cons. destruct x as [|c' x].
  - rewrite str_app_empty_l.
    replace (pos + S (len "")) with (S pos) by (unfold len; cbn; lia).
    apply M_plus_last. by constructor.
  - replace (pos + S (len (String c' x))) with (S pos + len (String c' x)) by lia.
    eapply M_plus_more; [by constructor | rewrite len_cons; lia |].
    by apply IH.
Qed.

Lemma matches_literal_all lit pos caps :
  matches (OpLiteral lit) lit pos caps "" (pos + len lit) caps.
Proof.
  pose proof (M_literal lit "" pos caps) as H. by rewrite str_app_empty_r in H.
Qed.

Lemma matches_path backend caps :
  backend ≠ "" → has_byte newline backend = false →
  matches re ("auth/" +:+ backend +:+ "/config/identity") 0 caps
    "" (0 + len "auth/" + len backend + len "/config/identity")
    (<[1 := Some (0 + len "auth/", 0 + len "auth/" + len backend)]> caps).
Proof.
  intros Hne Hnl. unfold awsAuthBackendConfigIdentityBackendFromPathRegex.
  eapply M_concat; [apply M_begin|].
  eapply M_concat; [apply M_literal|].
  eapply M_concat; [by apply M_capture, matches_any_plus|].
  eapply M_concat; [apply matches_literal_all | apply M_end].
Qed.

Lemma conforms_matches path backend caps :
  conforms path backend →
  matches re path 0 caps "" (len path) (<[1 := Some (5, 5 + len backend)]> caps).
Proof.
  intros (-> & Hne & Hnl).
  replace (len ("auth/" +:+ backend +:+ "/config/identity"))
    with (0 + len "auth/" + len backend + len "/config/identity")
    by (rewrite !len_app; lia).
  by apply matches_path.
Qed.

Lemma matches_conforms path caps s' pos' caps' :
  matches re path 0 caps s' pos' caps' →
  ∃ backend, conforms path backend ∧ s' = "" ∧ pos' = len path
             ∧ caps' = <[1 := Some (5, 5 + len backend)]> caps.
Proof.
  unfold awsAuthBackendConfigIdentityBackendFromPathRegex. intros H.
  inversion H as [ | | | | | | ? ? ? ? ? s1 p1 c1 ? ? ? H1 H2 | | | | ]; subst; clear H.
  inversion H1; subst; clear H1.
  inversion H2 as [ | | | | | | ? ? ? ? ? s2 p2 c2 ? ? ? H3 H4 | | | | ]; subst; clear H2.
  inversion H3; subst; clear H3.
  inversion H4 as [ | | | | | | ? ? ? ? ? s3 p3 c3 ? ? ? H5 H6 | | | | ]; subst; clear H4.
  inversion H5 as [ | | | | | ? ? ? ? ? ? ? ? H7 | | | | | ]; subst; clear H5.
  apply matches_any_plus_inv in H7 as (x & -> & Hne & Hnl & -> & ->); [|done].
  inversion H6 as [ | | | | | | ? ? ? ? ? s4 p4 c4 ? ? ? H8 H9 | | | | ]; subst; clear H6.
  inversion H8; subst; clear H8.
  inversion H9; subst; clear H9.
  exists x. rewrite str_app_empty_r. split_and!; [done | done | | done].
  rewrite !len_app. lia.
Qed.

Lemma conforms_inj path b1 b2 : conforms path b1 → conforms path b2 → b1 = b2.
Proof.
  intros (-> & _) (H & _). apply (inj (String.app "auth/")) in H.
  by apply str_app_inv_tail in H.
Qed.

(** The pattern starts with [^]: no match starts after offset 0. *)
Lemma search_anchored s pos : search re s (S pos) = None.
Proof.
  revert pos. induction s as [|c s IH]; intros pos; cbn [search]; [done|].
  apply IH.
Qed.

Lemma search_conforms path backend :
  conforms path backend → search re path 0 = Some (path_caps path backend).
Proof.
  intros Hc.
  pose (k := λ (_ : string) pos' caps', Some (<[0 := Some (0, pos')]> caps') : option Caps).
  assert (is_Some (run re path 0 [None; None] k)) as [res Hres].
  { eapply run_complete; [by apply conforms_matches | done]. }
  assert (res = path_caps path backend) as ->.
  { apply run_sound in Hres as (s' & pos' & caps' & Hm & Hk).
    apply matches_conforms in Hm as (b & Hb & -> & -> & ->).
    rewrite (conforms_inj _ _ _ Hc Hb). by injection Hk as <-. }
  destruct path; cbn [search]; change (replicate _ _) with [None; None : option (nat * nat)];
    fold k; by rewrite Hres.
Qed.

Lemma search_Some path caps :
  search re path 0 = Some caps → ∃ backend, conforms path backend.
Proof.
  intros H.
  assert (run re path 0 [None; None]
            (λ _ pos' caps', Some (<[0 := Some (0, pos')]> caps')) = Some caps) as Hrun.
  { destruct path; cbn [search] in H;
      change (replicate _ _) with [None; None : option (nat * nat)] in H;
      destruct (run _ _ _ _ _); [done..|].
    by rewrite search_anchored in H. }
  apply run_sound in Hrun as (s' & pos' & caps' & Hm & _).
  apply matches_conforms in Hm as (b & Hb & _). by exists b.
Qed.

Lemma MatchString_conforms path :
  MatchString re path = true ↔ ∃ backend, conforms path backend.
Proof.
  unfold MatchString. split.
  - destruct (search re path 0) eqn:H; [|done]. intros _. by eapply search_Some.
  - intros [b Hb]. by rewrite (search_conforms _ _ Hb).
Qed.

Lemma FindStringSubmatch_conforms path backend :
  conforms path backend → FindStringSubmatch re path = [path; backend].
Proof.
  intros Hc. unfold FindStringSubmatch. rewrite (search_conforms _ _ Hc).
  cbn [fmap list_fmap path_caps]. rewrite slice_all.
  destruct Hc as (-> & _). f_equal. f_equal. apply (slice_middle "auth/").
Qed.

Lemma BackendFromPath_conforms path backend :
  conforms path backend →
  awsAuthBackendConfigIdentityBackendFromPath path = (backend, None).
Proof.
  intros Hc. unfold awsAuthBackendConfigIdentityBackendFromPath.
  replace (MatchString re path) with true
    by (symmetry; apply MatchString_conforms; eauto).
  by rewrite (FindStringSubmatch_conforms _ _ Hc).
Qed.

Lemma BackendFromPath_not_conforms path :
  (∀ backend, ¬ conforms path backend) →
  awsAuthBackendConfigIdentityBackendFromPath path
  = ("", Some (Errorf "no backend found" [])).
Proof.
  intros Hn. unfold awsAuthBackendConfigIdentityBackendFromPath.
  destruct (MatchString re path) eqn:Hm; [|done].
  apply MatchString_conforms in Hm as [b Hb]. by destruct (Hn b).
Qed.

End path_pattern.

(** ** The path codec *)

Section path_codec.
Local Abbreviation re := awsAuthBackendConfigIdentityBackendFromPathRegex.

(** The hypotheses of the next theorem are necessary as well. *)
Lemma backend_from_path_of_path_only_if (b : string) :
  awsAuthBackendConfigIdentityBackendFromPath (awsAuthBackendConfigIdentityPath b)
  = (Trim b "/", None) →
  Trim b "/" ≠ "" ∧ has_byte newline (Trim b "/") = false.
Proof.
  intros H.
  destruct (MatchString re (awsAuthBackendConfigIdentityPath b)) eqn:Hm.
  - apply MatchString_conforms in Hm as [x Hx].
    rewrite (BackendFromPath_conforms _ _ Hx) in H. injection H as ->.
    by destruct Hx as (_ & ? & ?).
  - unfold awsAuthBackendConfigIdentityBackendFromPath in H. by rewrite Hm in H.
Qed.

(** C1, as the code has it: for every backend name whose trimmed form is
    not empty and holds no newline, parsing the path built from the name
    succeeds and gives the name with its leading and trailing slashes
    trimmed. *)
Theorem backend_from_path_of_path (b : string) :
  Trim b "/" ≠ "" →
  has_byte newline (Trim b "/") = false →
  awsAuthBackendConfigIdentityBackendFromPath (awsAuthBackendConfigIdentityPath b)
  = (Trim b "/", None).
Proof.
  intros Hne Hnl. by apply BackendFromPath_conforms.
Qed.

Lemma backend_from_path_of_path_witness :
  awsAuthBackendConfigIdentityBackendFromPath (awsAuthBackendConfigIdentityPath "/aws/")
  = (Trim "/aws/" "/", None).
Proof.
  apply (backend_from_path_of_path "/aws/"); [discriminate | reflexivity].
Defined.

(** C1 fails as stated: a name made of slashes only is trimmed to the empty
    string, and the path built from it does not parse. *)
Lemma backend_from_path_of_path_slash :
  awsAuthBackendConfigIdentityPath "/" = "auth//config/identity"
  ∧ awsAuthBackendConfigIdentityBackendFromPath (awsAuthBackendConfigIdentityPath "/")
    = ("", Some (Errorf "no backend found" []))
  ∧ ¬ (∀ b : string,
         awsAuthBackendConfigIdentityBackendFromPath (awsAuthBackendConfigIdentityPath b)
         = (Trim b "/", None)).
Proof.
  split_and!; [reflexivity | reflexivity |].
  intros H. specialize (H "/"). discriminate H.
Qed.

(** The same happens for a name with a newline in it, which [.] refuses. *)
Lemma backend_from_path_of_path_newline :
  awsAuthBackendConfigIdentityBackendFromPath
    (awsAuthBackendConfigIdentityPath (String "a" (String newline "b")))
  = ("", Some (Errorf "no backend found" [])).
Proof. reflexivity. Qed.

(** C6: a path that the pattern does not match gets the error "no backend
    found"; on a path that it matches, [FindStringSubmatch] has exactly two
    elements, the path and the backend, and the backend is returned with no
    error; the error about the number of matches is never returned. *)
Theorem backend_from_path_cases (path : string) :
  (if MatchString re path
   then ∃ backend,
          conforms path backend
          ∧ FindStringSubmatch re path = [path; backend]
          ∧ length (FindStringSubmatch re path) = 2
          ∧ awsAuthBackendConfigIdentityBackendFromPath path = (backend, None)
   else (∀ backend, ¬ conforms path backend)
        ∧ awsAuthBackendConfigIdentityBackendFromPath path
          = ("", Some (Errorf "no backend found" [])))
  ∧ ∀ n, awsAuthBackendConfigIdentityBackendFromPath path
         ≠ ("", Some (Errorf "unexpected number of matches (%d) for backend" [ArgD n])).
Proof.
  destruct (MatchString re path) eqn:Hm.
  - apply MatchString_conforms in Hm as [b Hb].
    pose proof (FindStringSubmatch_conforms _ _ Hb) as Hf.
    pose proof (BackendFromPath_conforms _ _ Hb) as Hr.
    split; [|by rewrite Hr]. exists b. by rewrite Hf.
  - assert (∀ backend, ¬ conforms path backend) as Hn.
    { intros b Hb. assert (MatchString re path = true) as Ht
        by (apply MatchString_conforms; eauto).
      by rewrite Hm in Ht. }
    rewrite (BackendFromPath_not_conforms _ Hn). done.
Qed.

End path_codec.

(** ** The callbacks *)

Section callbacks.
Implicit Types (client : Client) (d : ResourceData) (w : World).

(** [Get] answers a value of the declared type, which is what the type
    assertions of [awsAuthBackendConfigIdentityWrite] rely on. *)
Lemma Get_has_type key f d :
  awsAuthBackendConfigIdentitySchema !! key = Some f →
  has_type (Type_ f) (Get key d) = true.
Proof.
  intros Hf. unfold Get. rewrite Hf.
  destruct (attrs d !! key) as [v|]; [|by destruct (Type_ f)].
  destruct (has_type (Type_ f) v) eqn:Hv; [done | by destruct (Type_ f)].
Qed.

Lemma Get_string key d :
  key ∈ ["backend"; "iam_alias"; "ec2_alias"] →
  Get key d = VString (as_string (Get key d)).
Proof.
  intros Hkey.
  assert (∃ f, awsAuthBackendConfigIdentitySchema !! key = Some f
               ∧ Type_ f = TypeString) as (f & Hf & Ht).
  { set_unfold in Hkey. destruct Hkey as [->|[->|[->|[]]]]; eexists; split; reflexivity. }
  pose proof (Get_has_type key f d Hf) as H. rewrite Ht in H.
  by destruct (Get key d).
Qed.

Local Abbreviation re := awsAuthBackendConfigIdentityBackendFromPathRegex.

(** C2: when the stored identifier is a conforming path and the remote read
    answers a nil payload and no error, [awsAuthBackendConfigIdentityRead]
    returns nil and leaves the identifier empty and the attributes as they
    were. *)
Theorem read_not_found client d w :
  MatchString re (id d) = true →
  read_reply client (calls w) (id d) = (None, None) →
  awsAuthBackendConfigIdentityRead client (d, w)
  = (None,
     ({| id := ""; attrs := attrs d |},
      {| calls := calls w ++ [ReadCall (id d)];
         logs :=
           ((logs w
             ++ [("[DEBUG] Reading identity config %q from AWS auth backend",
                  [ArgQ (id d)])])
            ++ [("[DEBUG] Read identity config %q from AWS auth backend",
                 [ArgQ (id d)])])
           ++ [("[WARN] AWS auth backend identity config %q not found, removing it from state",
                [ArgQ (id d)])] |})).
Proof.
  intros Hm Hr. apply MatchString_conforms in Hm as [b Hb].
  unfold awsAuthBackendConfigIdentityRead, mbind, Op_bind, Id; cbn.
  rewrite (BackendFromPath_conforms _ _ Hb); cbn. by rewrite Hr.
Qed.

Lemma read_not_found_witness :
  let d := data_defaults "auth/aws/config/identity" in
  MatchString re (id d) = true
  ∧ read_reply client_empty (calls world0) (id d) = (None, None)
  ∧ awsAuthBackendConfigIdentityRead client_empty (d, world0)
    = (None,
       ({| id := ""; attrs := attrs d |},
        {| calls := [ReadCall "auth/aws/config/identity"];
           logs :=
             [("[DEBUG] Reading identity config %q from AWS auth backend",
               [ArgQ "auth/aws/config/identity"]);
              ("[DEBUG] Read identity config %q from AWS auth backend",
               [ArgQ "auth/aws/config/identity"]);
              ("[WARN] AWS auth backend identity config %q not found, removing it from state",
               [ArgQ "auth/aws/config/identity"])] |})).
Proof.
  intros d. split_and!; [reflexivity | reflexivity |].
  apply (read_not_found client_empty d world0); reflexivity.
Defined.

(** C7: when the stored identifier does not match the path pattern,
    [awsAuthBackendConfigIdentityRead] returns an error that names the
    path, and has sent nothing to the remote API: the resource data and
    the world are as they were. *)
Theorem read_invalid_path client d w :
  MatchString re (id d) = false →
  awsAuthBackendConfigIdentityRead client (d, w)
  = (Some (Errorf "invalid path %q for AWS auth identity config:  %s"
             [ArgQ (id d); ArgS (Errorf "no backend found" [])]),
     (d, w)).
Proof.
  intros Hm. unfold awsAuthBackendConfigIdentityRead, mbind, Op_bind, Id; cbn.
  unfold awsAuthBackendConfigIdentityBackendFromPath. by rewrite Hm.
Qed.

Lemma read_invalid_path_witness :
  let d := data_defaults "auth//config/identity" in
  MatchString re (id d) = false
  ∧ awsAuthBackendConfigIdentityRead client_empty (d, world0)
    = (Some (Errorf "invalid path %q for AWS auth identity config:  %s"
               [ArgQ "auth//config/identity"; ArgS (Errorf "no backend found" [])]),
       (d, world0)).
Proof.
  intros d. split; [reflexivity|].
  apply (read_invalid_path client_empty d world0); reflexivity.
Defined.

(** C5: [awsAuthBackendConfigIdentityDelete] returns nil whatever the state
    and the client, sends nothing to the remote API and leaves the resource
    data alone; it writes one line to the log. *)
Theorem delete_is_local client d w :
  awsAuthBackendConfigIdentityDelete client (d, w)
  = (None,
     (d, {| calls := calls w;
            logs := logs w ++ [("[DEBUG] Deleting AWS identity config from state file", [])] |})).
Proof. reflexivity. Qed.

(** C8: when the remote read succeeds, [awsAuthBackendConfigIdentityExists]
    answers whether a payload came back, with no error, and leaves the
    resource data alone. *)
Theorem exists_reports_presence client d w resp :
  read_reply client (calls w) (id d) = (resp, None) →
  awsAuthBackendConfigIdentityExists client (d, w)
  = ((bool_decide (is_Some resp), None),
     (d,
      {| calls := calls w ++ [ReadCall (id d)];
         logs :=
           (logs w
            ++ [("[DEBUG] Checking if identity config %q exists in AWS auth backend",
                 [ArgQ (id d)])])
           ++ [("[DEBUG] Checked if identity config %q exists in AWS auth backend",
                [ArgQ (id d)])] |})).
Proof.
  intros Hr. unfold awsAuthBackendConfigIdentityExists, mbind, Op_bind, Id; cbn.
  by rewrite Hr.
Qed.

Lemma exists_reports_presence_witness :
  let d := data_defaults "auth/aws/config/identity" in
  read_reply client_empty (calls world0) (id d) = (None, None)
  ∧ awsAuthBackendConfigIdentityExists client_empty (d, world0)
    = ((false, None),
       (d,
        {| calls := [ReadCall "auth/aws/config/identity"];
           logs :=
             [("[DEBUG] Checking if identity config %q exists in AWS auth backend",
               [ArgQ "auth/aws/config/identity"]);
              ("[DEBUG] Checked if identity config %q exists in AWS auth backend",
               [ArgQ "auth/aws/config/identity"])] |})).
Proof.
  intros d. split; [reflexivity|].
  apply (exists_reports_presence client_empty d world0 None); reflexivity.
Defined.

(** C10: when the remote read fails, [awsAuthBackendConfigIdentityExists]
    answers [true] together with the error wrapped with the path. *)
Theorem exists_on_read_error client d w resp err :
  read_reply client (calls w) (id d) = (resp, Some err) →
  awsAuthBackendConfigIdentityExists client (d, w)
  = ((true,
      Some (Errorf
              "error checking for existence of AWS auth backend identity config %q: %s"
              [ArgQ (id d); ArgS err])),
     (d,
      {| calls := calls w ++ [ReadCall (id d)];
         logs :=
           logs w
           ++ [("[DEBUG] Checking if identity config %q exists in AWS auth backend",
                [ArgQ (id d)])] |})).
Proof.
  intros Hr. unfold awsAuthBackendConfigIdentityExists, mbind, Op_bind, Id; cbn.
  by rewrite Hr.
Qed.

Lemma exists_on_read_error_witness :
  let d := data_defaults "auth/aws/config/identity" in
  read_reply client_down (calls world0) (id d)
  = (None, Some (Errorf "connection refused" []))
  ∧ awsAuthBackendConfigIdentityExists client_down (d, world0)
    = ((true,
        Some (Errorf
                "error checking for existence of AWS auth backend identity config %q: %s"
                [ArgQ "auth/aws/config/identity"; ArgS (Errorf "connection refused" [])])),
       (d,
        {| calls := [ReadCall "auth/aws/config/identity"];
           logs :=
             [("[DEBUG] Checking if identity config %q exists in AWS auth backend",
               [ArgQ "auth/aws/config/identity"])] |})).
Proof.
  intros d. split; [reflexivity|].
  apply (exists_on_read_error client_down d world0 None (Errorf "connection refused" []));
    reflexivity.
Defined.

Lemma write_data_pure d w :
  (awsAuthBackendConfigIdentityWrite_data (d, w)).2 = (d, w).
Proof. reflexivity. Qed.

(** C3: when the remote write fails, [awsAuthBackendConfigIdentityWrite]
    returns the error wrapped with the path, and the resource data,
    identifier included, is as it was; when it succeeds, the identifier
    becomes the path built from the backend and the result is that of
    [awsAuthBackendConfigIdentityRead] from there. *)
Theorem write_outcome client d w :
  let '(path, data) := (awsAuthBackendConfigIdentityWrite_data (d, w)).1 in
  let w1 :=
    {| calls := calls w ++ [WriteCall path data];
       logs := logs w ++ [("[DEBUG] Writing AWS identity config to %q", [ArgQ path])] |} in
  path = awsAuthBackendConfigIdentityPath (as_string (Get "backend" d))
  ∧ match (write_reply client (calls w) path data).2 with
    | Some err =>
        awsAuthBackendConfigIdentityWrite client (d, w)
        = (Some (Errorf "error configuring AWS auth identity config %q: %s"
                   [ArgQ path; ArgS err]),
           (d, w1))
    | None =>
        awsAuthBackendConfigIdentityWrite client (d, w)
        = awsAuthBackendConfigIdentityRead client
            ({| id := path; attrs := attrs d |},
             {| calls := calls w1;
                logs := logs w1 ++ [("[DEBUG] Wrote AWS identity config to %q", [ArgQ path])] |})
    end.
Proof.
  destruct (awsAuthBackendConfigIdentityWrite_data (d, w)) as [[path data] st] eqn:Hd.
  pose proof (write_data_pure d w) as Hst. rewrite Hd in Hst. cbn [snd fst] in *. subst st.
  split; [by injection Hd as <- _|].
  destruct (write_reply client (calls w) path data) as [resp [err|]] eqn:Hw;
    cbn [snd]; unfold awsAuthBackendConfigIdentityWrite, mbind, Op_bind; rewrite Hd;
    unfold logPrintf, LogicalWrite, SetId, mret, Op_ret; cbn [calls logs];
    by rewrite Hw.
Qed.

(** [awsAuthBackendConfigIdentityRead] only adds to the requests sent. *)
Lemma read_calls client d w :
  ∃ rest, calls (awsAuthBackendConfigIdentityRead client (d, w)).2.2 = calls w ++ rest.
Proof.
  unfold awsAuthBackendConfigIdentityRead, mbind, Op_bind, Id; cbn.
  destruct (awsAuthBackendConfigIdentityBackendFromPath (id d)) as [b [e|]]; cbn.
  { exists []. by rewrite app_nil_r. }
  destruct (read_reply client (calls w) (id d)) as [[resp|] [e|]]; cbn; eauto.
Qed.

(** The first request [awsAuthBackendConfigIdentityWrite] sends is the write
    of the payload it gathered. *)
Lemma write_calls client d w :
  let '(path, data) := (awsAuthBackendConfigIdentityWrite_data (d, w)).1 in
  ∃ rest,
    calls (awsAuthBackendConfigIdentityWrite client (d, w)).2.2
    = calls w ++ WriteCall path data :: rest.
Proof.
  destruct (awsAuthBackendConfigIdentityWrite_data (d, w)) as [[path data] st] eqn:Hd.
  pose proof (write_data_pure d w) as Hst. rewrite Hd in Hst. cbn [snd fst] in *. subst st.
  unfold awsAuthBackendConfigIdentityWrite, mbind, Op_bind; rewrite Hd.
  unfold logPrintf, LogicalWrite, SetId, mret, Op_ret; cbn [calls logs].
  destruct (write_reply client (calls w) path data) as [resp [err|]].
  - by exists [].
  - edestruct read_calls as [rest ->]. exists rest. cbn [calls].
    by rewrite <-app_assoc.
Qed.

(** C4, as the code has it: the map handed to the remote write has the four
    keys [iam_alias], [iam_metadata], [ec2_alias] and [ec2_metadata],
    whatever is set in the configuration; an alias key carries the string
    that [Get] answers, a metadata key the elements of the set when the
    set is present and not empty, and the nil string array otherwise. *)
Theorem write_payload_keys client d w :
  ∃ path data rest,
    calls (awsAuthBackendConfigIdentityWrite client (d, w)).2.2
    = calls w ++ WriteCall path data :: rest
    ∧ dom data = {[ "iam_alias"; "iam_metadata"; "ec2_alias"; "ec2_metadata" ]}
    ∧ data !! "iam_alias" = Some (VString (as_string (Get "iam_alias" d)))
    ∧ data !! "ec2_alias" = Some (VString (as_string (Get "ec2_alias" d)))
    ∧ data !! "iam_metadata"
      = Some (VStrings (if (GetOk "iam_metadata" d).2
                        then TerraformSetToStringArray (Get "iam_metadata" d) else []))
    ∧ data !! "ec2_metadata"
      = Some (VStrings (if (GetOk "ec2_metadata" d).2
                        then TerraformSetToStringArray (Get "ec2_metadata" d) else [])).
Proof.
  destruct (write_calls client d w) as [rest Hrest].
  eexists _, _, rest. split; [exact Hrest|].
  split; [|done].
  rewrite !dom_insert_L, dom_singleton_L. set_solver.
Qed.

(** C4 fails as stated: with the defaults in place and neither metadata set
    configured, the two metadata keys are still in the map that is sent. *)
Lemma write_payload_unset_metadata :
  let d := {| id := "";
              attrs := {[ "backend" := VString "aws"; "iam_alias" := VString "role_id";
                          "ec2_alias" := VString "role_id" ]} |} in
  let client := {| read_reply := λ _ _, (None, None);
                   write_reply := λ _ _ _, (None, None) |} in
  attrs d !! "iam_metadata" = None
  ∧ attrs d !! "ec2_metadata" = None
  ∧ calls (awsAuthBackendConfigIdentityWrite client (d, {| calls := []; logs := [] |})).2.2
    = [WriteCall "auth/aws/config/identity"
         {[ "iam_alias" := VString "role_id"; "iam_metadata" := VStrings [];
            "ec2_alias" := VString "role_id"; "ec2_metadata" := VStrings [] ]};
       ReadCall "auth/aws/config/identity"]
  ∧ ¬ (∀ client d w key path data rest,
         calls (awsAuthBackendConfigIdentityWrite client (d, w)).2.2
         = calls w ++ WriteCall path data :: rest →
         attrs d !! key = None → data !! key = None).
Proof.
  intros d client. split_and!; [reflexivity | reflexivity | reflexivity |].
  intros H.
  specialize (H client d {| calls := []; logs := [] |} "iam_metadata" _ _ _ eq_refl eq_refl).
  discriminate H.
Qed.

End callbacks.

(** ** The duplicate alias *)

Section entity_alias.
Variable Quote : string → string.
Hypothesis Quote_no_newline : ∀ s, has_byte newline (Quote s) = false.

(** What [.*] matches: any run of bytes other than the newline. *)
Lemma matches_any_star x s' pos caps :
  has_byte newline x = false →
  matches (OpStar OpAnyCharNotNL) (x +:+ s') pos caps s' (pos + len x) caps.
Proof.
  revert pos. induction x as [|c x IH]; intros pos Hx.
  - rewrite str_app_empty_l. replace (pos + len "") with pos by (unfold len; cbn; lia).
    apply M_star_done.
  - cbn in Hx. apply orb_false_elim in Hx as [Hc Hx].
    assert (c ≠ newline) by (by destruct (Ascii.eqb_spec c newline)).
    rewrite str_app_cons, len_cons.
    replace (pos + S (len x)) with (S pos + len x) by lia.
    eapply M_star_more; [by constructor | rewrite len_cons; lia | by apply IH].
Qed.

(** A match at the offset where the search stands is found. *)
Lemma search_complete re s pos s' pos' caps' :
  matches re s pos (replicate (S (NumSubexp re)) None) s' pos' caps' →
  is_Some (search re s pos).
Proof.
  intros Hm.
  assert (is_Some (run re s pos (replicate (S (NumSubexp re)) None)
                     (λ _ pos' caps', Some (<[0 := Some (pos, pos')]> caps'))))
    as [res Hres] by (eapply run_complete; [exact Hm | done]).
  destruct s; cbn [search]; by rewrite Hres.
Qed.

Lemma duplicateAliasExpectError_matches x y z :
  has_byte newline x = false → has_byte newline y = false →
  MatchString duplicateAliasExpectError
    ("IdentityEntityAlias" +:+ x +:+ "already exists" +:+ y +:+ "may be imported" +:+ z)
  = true.
Proof.
  intros Hx Hy. unfold MatchString.
  edestruct search_complete as [res ->]; [|done].
  unfold duplicateAliasExpectError.
  eapply M_concat; [apply M_literal|].
  eapply M_concat; [by apply matches_any_star|].
  eapply M_concat; [apply M_literal|].
  eapply M_concat; [by apply matches_any_star|].
  apply M_literal.
Qed.

Lemma duplicate_alias_text name aliasID :
  Error Quote
    (Errorf "IdentityEntityAlias %q already exists. Alias resource ID %q may be imported."
       [ArgQ name; ArgQ aliasID])
  = "IdentityEntityAlias" +:+ (" " +:+ Quote name +:+ " ") +:+ "already exists"
    +:+ (". Alias resource ID " +:+ Quote aliasID +:+ " ") +:+ "may be imported" +:+ ".".
Proof. rewrite !str_app_assoc. reflexivity. Qed.

Lemma findAliasID_member a aliasID b store :
  (aliasID, b) ∈ store → same_alias a b = true → is_Some (findAliasID a store).
Proof.
  induction store as [|[i c] store IH]; intros Hin Hs; [by apply elem_of_nil in Hin|].
  cbn [findAliasID]. destruct (same_alias a c) eqn:Hc; [done|].
  apply elem_of_cons in Hin as [Heq | Hin]; [|by apply IH].
  injection Heq as -> ->. by rewrite Hs in Hc.
Qed.

(** C9: creating an alias whose name and mount are those of an alias that
    the remote store already holds fails; the text of the error matches the
    pattern the acceptance test expects, [IdentityEntityAlias.*already
    exists.*may be imported]; the identifier of the resource and the remote
    store are as they were. *)
Theorem create_duplicate_alias newID a localID store aliasID b :
  (aliasID, b) ∈ store →
  alias_name a = alias_name b →
  alias_mount_accessor a = alias_mount_accessor b →
  ∃ err,
    identityEntityAliasCreate newID a (localID, store) = (Some err, (localID, store))
    ∧ MatchString duplicateAliasExpectError (Error Quote err) = true.
Proof.
  intros Hin Hname Hmount.
  destruct (findAliasID_member a aliasID b store Hin) as [found Hfound].
  { unfold same_alias. by rewrite !bool_decide_eq_true_2. }
  unfold identityEntityAliasCreate. rewrite Hfound.
  eexists. split; [reflexivity|].
  rewrite duplicate_alias_text.
  apply duplicateAliasExpectError_matches;
    rewrite !has_byte_app, !Quote_no_newline; reflexivity.
Qed.

End entity_alias.

Lemma escape_newlines_no_newline (s : string) :
  has_byte newline (escape_newlines s) = false.
Proof.
  induction s as [|c s IH]; [done|].
  cbn [escape_newlines]. destruct (Ascii.eqb_spec c newline) as [->|Hc].
  - exact IH.
  - cbn [has_byte]. rewrite IH, orb_false_r. by destruct (Ascii.eqb_spec c newline).
Qed.

Lemma quote_simple_no_newline (s : string) : has_byte newline (quote_simple s) = false.
Proof.
  unfold quote_simple. cbn [has_byte].
  by rewrite has_byte_app, escape_newlines_no_newline.
Qed.

Lemma create_duplicate_alias_witness :
  let a := {| alias_name := "my-entity-A"; alias_mount_accessor := "auth_github_1";
              alias_canonical_id := "entity-1" |} in
  let store := [("alias-1", a)] in
  ∃ err,
    identityEntityAliasCreate "alias-2" a ("", store) = (Some err, ("", store))
    ∧ MatchString duplicateAliasExpectError (Error quote_simple err) = true.
Proof.
  intros a store.
  apply (create_duplicate_alias quote_simple quote_simple_no_newline
           "alias-2" a "" store "alias-1" a);
    [apply list_elem_of_here | reflexivity | reflexivity].
Defined.

(** ** The error texts of the callbacks *)

Section error_texts.
Variable Quote : string → string.

(** The text of the error of a failed write holds the quoted path and the
    text of the cause. *)
Lemma write_error_text path err :
  Error Quote (Errorf "error configuring AWS auth identity config %q: %s"
                 [ArgQ path; ArgS err])
  = "error configuring AWS auth identity config " +:+ Quote path +:+ ": "
    +:+ Error Quote err.
Proof.
  transitivity ("error configuring AWS auth identity config " +:+ Quote path +:+ ": "
                +:+ Error Quote err +:+ "");
    [reflexivity | by rewrite str_app_empty_r].
Qed.

(** The text of the error of a read with a malformed identifier holds the
    quoted identifier. *)
Lemma invalid_path_text path :
  Error Quote (Errorf "invalid path %q for AWS auth identity config:  %s"
                 [ArgQ path; ArgS (Errorf "no backend found" [])])
  = "invalid path " +:+ Quote path
    +:+ " for AWS auth identity config:  no backend found".
Proof. reflexivity. Qed.

End error_texts.

(** * Further properties *)

(** ** Trimming *)

Section trimming.
Implicit Types (s t cutset : string) (c : ascii).

Lemma TrimRight_idemp s cutset :
  TrimRight (TrimRight s cutset) cutset = TrimRight s cutset.
Proof.
  induction s as [|c s IH]; [done|]. cbn [TrimRight].
  destruct (TrimRight s cutset) as [|a r] eqn:Hr.
  - destruct (in_cutset cutset c) eqn:Hc; [done|]. cbn [TrimRight]. by rewrite Hc.
  - cbn [TrimRight]. cbn [TrimRight] in IH. by rewrite IH.
Qed.

Lemma TrimLeft_idemp s cutset :
  TrimLeft (TrimLeft s cutset) cutset = TrimLeft s cutset.
Proof.
  induction s as [|c s IH]; [done|]. cbn [TrimLeft].
  destruct (in_cutset cutset c) eqn:Hc; [done|]. cbn [TrimLeft]. by rewrite Hc.
Qed.

(** Trimming on the left keeps a string trimmed on the right. *)
Lemma TrimRight_TrimLeft s cutset :
  TrimRight s cutset = s → TrimRight (TrimLeft s cutset) cutset = TrimLeft s cutset.
Proof.
  induction s as [|c s IH]; intros H; [done|]. cbn [TrimLeft].
  destruct (in_cutset cutset c) eqn:Hc; [|done].
  apply IH. cbn [TrimRight] in H. rewrite Hc in H.
  destruct (TrimRight s cutset); [done|]. by injection H.
Qed.

Lemma Trim_idemp s cutset : Trim (Trim s cutset) cutset = Trim s cutset.
Proof.
  unfold Trim.
  by rewrite (TrimRight_TrimLeft _ _ (TrimRight_idemp s cutset)), TrimLeft_idemp.
Qed.

Lemma TrimLeft_fixed s cutset :
  TrimLeft s cutset = s ↔ ∀ c, first_byte s = Some c → in_cutset cutset c = false.
Proof.
  destruct s as [|a s]; cbn [TrimLeft first_byte]; [by split|].
  destruct (in_cutset cutset a) eqn:Ha; split.
  - intros H. apply (f_equal len) in H. exfalso. revert H.
    assert (len (TrimLeft s cutset) ≤ len s) as Hle.
    { clear. induction s as [|c s IH]; [done|]. cbn [TrimLeft].
      destruct (in_cutset cutset c); rewrite ?len_cons; lia. }
    rewrite len_cons. lia.
  - intros H. specialize (H a eq_refl). congruence.
  - intros _ c [= <-]. done.
  - done.
Qed.

Lemma TrimRight_fixed s cutset :
  TrimRight s cutset = s ↔ ∀ c, last_byte s = Some c → in_cutset cutset c = false.
Proof.
  induction s as [|a s IH]; [by split|].
  cbn [TrimRight]. destruct s as [|b s].
  - cbn [TrimRight last_byte]. destruct (in_cutset cutset a) eqn:Ha; split.
    + done.
    + intros H. specialize (H a eq_refl). congruence.
    + intros _ c [= <-]. done.
    + done.
  - change (last_byte (String a (String b s))) with (last_byte (String b s)).
    rewrite <-IH. destruct (TrimRight (String b s) cutset) as [|x r] eqn:Hr.
    + split; [|intros [=]]. destruct (in_cutset cutset a); intros H; simplify_eq.
    + split; [intros H; by simplify_eq | by intros ->].
Qed.

Lemma Trim_fixed s cutset :
  Trim s cutset = s ↔
  (∀ c, first_byte s = Some c → in_cutset cutset c = false)
  ∧ (∀ c, last_byte s = Some c → in_cutset cutset c = false).
Proof.
  rewrite <-TrimLeft_fixed, <-TrimRight_fixed. unfold Trim. split.
  - intros H.
    assert (TrimRight s cutset = s) as Hr.
    { rewrite <-H at 1.
      rewrite (TrimRight_TrimLeft _ _ (TrimRight_idemp s cutset)). exact H. }
    rewrite Hr in H. done.
  - intros [Hl Hr]. by rewrite Hr, Hl.
Qed.

End trimming.

(** ** More on the path codec *)

Section path_codec_more.
Implicit Types (path backend b s : string).

Local Abbreviation re := awsAuthBackendConfigIdentityBackendFromPathRegex.

Lemma in_cutset_slash c : in_cutset "/" c = false ↔ c ≠ "/"%char.
Proof.
  cbn [in_cutset]. rewrite orb_false_r.
  destruct (Ascii.eqb_spec "/" c) as [<-|]; split; congruence.
Qed.

Lemma BackendFromPath_Some path backend :
  awsAuthBackendConfigIdentityBackendFromPath path = (backend, None) →
  conforms path backend.
Proof.
  intros H. destruct (MatchString re path) eqn:Hm.
  - apply MatchString_conforms in Hm as [x Hx].
    rewrite (BackendFromPath_conforms _ _ Hx) in H. by injection H as <-.
  - unfold awsAuthBackendConfigIdentityBackendFromPath in H. by rewrite Hm in H.
Qed.

Lemma Path_inj_trim a b :
  awsAuthBackendConfigIdentityPath a = awsAuthBackendConfigIdentityPath b →
  Trim a "/" = Trim b "/".
Proof.
  unfold awsAuthBackendConfigIdentityPath. intros H.
  apply (inj (String.app "auth/")) in H. by apply str_app_inv_tail in H.
Qed.

Lemma Path_Trim b :
  awsAuthBackendConfigIdentityPath (Trim b "/") = awsAuthBackendConfigIdentityPath b.
Proof. unfold awsAuthBackendConfigIdentityPath. by rewrite Trim_idemp. Qed.

(** X1: the [backend] field declares a state function; the function is
    idempotent, and the path built from a name in its state form is the path
    built from the name as configured. *)
Theorem backend_state_form_same_path :
  ∃ f sf,
    awsAuthBackendConfigIdentitySchema !! "backend" = Some f
    ∧ StateFunc f = Some sf
    ∧ ∀ b, sf (sf b) = sf b
           ∧ awsAuthBackendConfigIdentityPath (sf b) = awsAuthBackendConfigIdentityPath b.
Proof.
  eexists _, _. split_and!; [reflexivity | reflexivity |].
  intros b. split; [apply Trim_idemp | apply Path_Trim].
Qed.

(** X2: two backend names are given the same path exactly when they are the
    same once their leading and trailing slashes are trimmed. *)
Theorem path_same_iff_trim_same (a b : string) :
  awsAuthBackendConfigIdentityPath a = awsAuthBackendConfigIdentityPath b
  ↔ Trim a "/" = Trim b "/".
Proof.
  split; [apply Path_inj_trim|].
  unfold awsAuthBackendConfigIdentityPath. by intros ->.
Qed.

(** X3: when a path parses, building the path of the backend that was parsed
    gives the path back exactly when that backend neither begins nor ends
    with a slash. *)
Theorem path_of_parsed_backend path backend :
  awsAuthBackendConfigIdentityBackendFromPath path = (backend, None) →
  awsAuthBackendConfigIdentityPath backend = path
  ↔ first_byte backend ≠ Some "/"%char ∧ last_byte backend ≠ Some "/"%char.
Proof.
  intros H. apply BackendFromPath_Some in H as (-> & _).
  transitivity (Trim backend "/" = backend).
  - unfold awsAuthBackendConfigIdentityPath. split; [|by intros ->].
    intros H. apply (inj (String.app "auth/")) in H. by apply str_app_inv_tail in H.
  - rewrite Trim_fixed. split; intros [Hl Hr]; split.
    + intros Hf. by apply Hl, in_cutset_slash in Hf.
    + intros Hf. by apply Hr, in_cutset_slash in Hf.
    + intros c Hc. apply in_cutset_slash. congruence.
    + intros c Hc. apply in_cutset_slash. congruence.
Qed.

Lemma path_of_parsed_backend_witness :
  awsAuthBackendConfigIdentityBackendFromPath "auth//aws/config/identity" = ("/aws", None)
  ∧ (awsAuthBackendConfigIdentityPath "/aws" = "auth//aws/config/identity"
     ↔ first_byte "/aws" ≠ Some "/"%char ∧ last_byte "/aws" ≠ Some "/"%char)
  ∧ awsAuthBackendConfigIdentityPath "/aws" = "auth/aws/config/identity".
Proof.
  split_and!; [reflexivity | | reflexivity].
  apply (path_of_parsed_backend "auth//aws/config/identity" "/aws"). reflexivity.
Defined.

End path_codec_more.

(** ** More on the matcher *)

Section matcher_more.
Implicit Types (r re : Regexp) (s : string) (pos : nat) (caps : Caps).

Lemma matches_caps_length r s pos caps s' pos' caps' :
  matches r s pos caps s' pos' caps' → length caps' = length caps.
Proof.
  induction 1; unfold Caps in *; rewrite ?length_insert; congruence.
Qed.

Lemma search_caps_length re s pos caps :
  search re s pos = Some caps → length caps = S (NumSubexp re).
Proof.
  revert pos. induction s as [|c s IH]; intros pos H; cbn [search] in H.
  - destruct (run re "" pos _ _) as [res|] eqn:Hrun; [|done]. injection H as <-.
    apply run_sound in Hrun as (s' & pos' & caps' & Hm & [= <-]).
    apply matches_caps_length in Hm. unfold Caps in *.
    rewrite length_insert, Hm. apply length_replicate.
  - destruct (run re (String c s) pos _ _) as [res|] eqn:Hrun.
    + injection H as <-.
      apply run_sound in Hrun as (s' & pos' & caps' & Hm & [= <-]).
      apply matches_caps_length in Hm. unfold Caps in *.
      rewrite length_insert, Hm. apply length_replicate.
    + by apply IH in H.
Qed.

(** X4: for every pattern and every text, [FindStringSubmatch] has one more
    element than the pattern has groups when [MatchString] accepts the text,
    and is the nil slice when it does not; a pattern with one group, as the
    one of the path, can only give two elements. *)
Theorem FindStringSubmatch_length re s :
  length (FindStringSubmatch re s)
  = if MatchString re s then S (NumSubexp re) else 0.
Proof.
  unfold FindStringSubmatch, MatchString.
  destruct (search re s 0) as [caps|] eqn:H; [|done].
  rewrite length_fmap. by eapply search_caps_length.
Qed.

End matcher_more.

(** ** The pattern of the duplicate alias test *)

Section expect_error.
Implicit Types (r re : Regexp) (s p x y z : string) (pos : nat) (caps : Caps).

Lemma matches_any_star_inv r s pos caps s' pos' caps' :
  matches r s pos caps s' pos' caps' →
  r = OpStar OpAnyCharNotNL →
  ∃ x, s = x +:+ s' ∧ has_byte newline x = false.
Proof.
  induction 1 as
    [ | | | | | | | |
    | r s pos caps
    | r s pos caps s1 pos1 caps1 s' pos' caps' Hm _ _ _ IH ];
    intros Hr; try discriminate Hr.
  - by exists "".
  - injection Hr as ->. destruct (IH eq_refl) as (x & -> & Hx).
    inversion Hm as [ | | c ? ? ? Hc | | | | | | | | ]; subst.
    exists (String c x). split; [done|].
    cbn [has_byte]. rewrite Hx. by destruct (Ascii.eqb_spec c newline).
Qed.

(** The search answers only where the pattern matches. *)
Lemma search_sound re s pos caps :
  search re s pos = Some caps →
  ∃ p s1 s' pos' caps',
    s = p +:+ s1
    ∧ matches re s1 (pos + len p) (replicate (S (NumSubexp re)) None) s' pos' caps'.
Proof.
  revert pos. induction s as [|c s IH]; intros pos H; cbn [search] in H.
  - destruct (run re "" pos _ _) as [res|] eqn:Hrun; [|done].
    apply run_sound in Hrun as (s' & pos' & caps' & Hm & _).
    exists "", "", s', pos', caps'. split; [done|].
    by replace (pos + len "") with pos by (unfold len; cbn; lia).
  - destruct (run re (String c s) pos _ _) as [res|] eqn:Hrun.
    + apply run_sound in Hrun as (s' & pos' & caps' & Hm & _).
      exists "", (String c s), s', pos', caps'. split; [done|].
      by replace (pos + len "") with pos by (unfold len; cbn; lia).
    + apply IH in H as (p & s1 & s' & pos' & caps' & -> & Hm).
      exists (String c p), s1, s', pos', caps'. split; [done|].
      by replace (pos + len (String c p)) with (S pos + len p) by (rewrite len_cons; lia).
Qed.

(** The search finds a match wherever it starts. *)
Lemma search_complete_at re p s1 pos s' pos' caps' :
  matches re s1 (pos + len p) (replicate (S (NumSubexp re)) None) s' pos' caps' →
  is_Some (search re (p +:+ s1) pos).
Proof.
  revert pos. induction p as [|c p IH]; intros pos Hm.
  - rewrite str_app_empty_l. eapply search_complete.
    by replace (pos + len "") with pos in Hm by (unfold len; cbn; lia).
  - rewrite str_app_cons. cbn [search].
    destruct (run re _ pos _ _); [done|]. apply IH.
    by replace (S pos + len p) with (pos + len (String c p)) by (rewrite len_cons; lia).
Qed.

Lemma matches_expect_error x y z pos caps :
  has_byte newline x = false → has_byte newline y = false →
  ∃ pos',
    matches duplicateAliasExpectError
      ("IdentityEntityAlias" +:+ x +:+ "already exists" +:+ y +:+ "may be imported" +:+ z)
      pos caps z pos' caps.
Proof.
  intros Hx Hy. eexists. unfold duplicateAliasExpectError.
  eapply M_concat; [apply M_literal|].
  eapply M_concat; [by apply matches_any_star|].
  eapply M_concat; [apply M_literal|].
  eapply M_concat; [by apply matches_any_star|].
  apply M_literal.
Qed.

Lemma matches_expect_error_inv s pos caps s' pos' caps' :
  matches duplicateAliasExpectError s pos caps s' pos' caps' →
  ∃ x y,
    s = "IdentityEntityAlias" +:+ x +:+ "already exists" +:+ y +:+ "may be imported" +:+ s'
    ∧ has_byte newline x = false ∧ has_byte newline y = false.
Proof.
  unfold duplicateAliasExpectError. intros H.
  inversion H as [ | | | | | | ? ? ? ? ? s1 p1 c1 ? ? ? H1 H2 | | | | ]; subst; clear H.
  inversion H1; subst; clear H1.
  inversion H2 as [ | | | | | | ? ? ? ? ? s2 p2 c2 ? ? ? H3 H4 | | | | ]; subst; clear H2.
  apply matches_any_star_inv in H3 as (x & -> & Hx); [|done].
  inversion H4 as [ | | | | | | ? ? ? ? ? s3 p3 c3 ? ? ? H5 H6 | | | | ]; subst; clear H4.
  inversion H5; subst; clear H5.
  inversion H6 as [ | | | | | | ? ? ? ? ? s4 p4 c4 ? ? ? H7 H8 | | | | ]; subst; clear H6.
  apply matches_any_star_inv in H7 as (y & -> & Hy); [|done].
  inversion H8; subst; clear H8.
  by exists x, y.
Qed.

(** X5: the pattern that the duplicate alias step expects,
    [IdentityEntityAlias.*already exists.*may be imported], accepts exactly
    the texts in which the three phrases come in this order with no newline
    between the first and the last of them. *)
Theorem duplicateAliasExpectError_accepts s :
  MatchString duplicateAliasExpectError s = true
  ↔ ∃ p x y z,
      s = p +:+ "IdentityEntityAlias" +:+ x +:+ "already exists" +:+ y
          +:+ "may be imported" +:+ z
      ∧ has_byte newline x = false ∧ has_byte newline y = false.
Proof.
  unfold MatchString. split.
  - destruct (search duplicateAliasExpectError s 0) as [caps|] eqn:H; [|done].
    intros _. apply search_sound in H as (p & s1 & s' & pos' & caps' & -> & Hm).
    apply matches_expect_error_inv in Hm as (x & y & -> & Hx & Hy).
    by exists p, x, y, s'.
  - intros (p & x & y & z & -> & Hx & Hy).
    destruct (matches_expect_error x y z (0 + len p)
                (replicate (S (NumSubexp duplicateAliasExpectError)) None) Hx Hy)
      as [pos' Hm].
    by destruct (search_complete_at _ _ _ _ _ _ _ Hm) as [caps ->].
Qed.

End expect_error.

(** ** More on the callbacks *)

Section callbacks_more.
Implicit Types (client : Client) (d : ResourceData) (w : World) (path : string).

Local Abbreviation re := awsAuthBackendConfigIdentityBackendFromPathRegex.

(** What one [Set] does to the attributes. *)
Lemma Set_spec key v d w :
  ∃ d',
    Set_ key v (d, w) = (tt, (d', w))
    ∧ id d' = id d
    ∧ ∀ k, attrs d' !! k
           = if decide (key = k) then match v with VNil => None | _ => Some v end
             else attrs d !! k.
Proof.
  eexists. split; [reflexivity|]. split; [done|]. intros k. cbn [attrs].
  destruct v; rewrite ?lookup_delete, ?lookup_insert; by case_decide.
Qed.

(** [awsAuthBackendConfigIdentityRead], branch by branch. *)
Lemma Read_cases client d w :
  awsAuthBackendConfigIdentityRead client (d, w)
  = if MatchString re (id d) then
      match read_reply client (calls w) (id d) with
      | (_, Some err) =>
          (Some (Errorf "error reading AWS auth backend identity config %q: %s"
                   [ArgQ (id d); ArgS err]),
           (d, {| calls := calls w ++ [ReadCall (id d)];
                  logs := logs w
                          ++ [("[DEBUG] Reading identity config %q from AWS auth backend",
                               [ArgQ (id d)])] |}))
      | (None, None) =>
          (None,
           ({| id := ""; attrs := attrs d |},
            {| calls := calls w ++ [ReadCall (id d)];
               logs := logs (world_read_ok (id d) w)
                       ++ [("[WARN] AWS auth backend identity config %q not found, removing it from state",
                            [ArgQ (id d)])] |}))
      | (Some resp, None) =>
          (Set_ "iam_alias" (index (Data resp) "iam_alias");;
           Set_ "iam_metadata" (index (Data resp) "iam_metadata");;
           Set_ "ec2_alias" (index (Data resp) "ec2_alias");;
           Set_ "ec2_metadata" (index (Data resp) "ec2_metadata");;
           Set_ "backend"
             (VString (awsAuthBackendConfigIdentityBackendFromPath (id d)).1);;
           mret None) (d, world_read_ok (id d) w)
      end
    else
      (Some (Errorf "invalid path %q for AWS auth identity config:  %s"
               [ArgQ (id d); ArgS (Errorf "no backend found" [])]),
       (d, w)).
Proof.
  destruct (MatchString re (id d)) eqn:Hm.
  - apply MatchString_conforms in Hm as [b Hb].
    unfold awsAuthBackendConfigIdentityRead, mbind, Op_bind, Id; cbn.
    rewrite (BackendFromPath_conforms _ _ Hb); cbn.
    by destruct (read_reply client (calls w) (id d)) as [[resp|] [err|]].
  - unfold awsAuthBackendConfigIdentityRead, mbind, Op_bind, Id; cbn.
    unfold awsAuthBackendConfigIdentityBackendFromPath. by rewrite Hm.
Qed.

(** The attributes after a read that found the configuration. *)
Lemma Read_found client d w b resp :
  conforms (id d) b →
  read_reply client (calls w) (id d) = (Some resp, None) →
  ∃ d',
    awsAuthBackendConfigIdentityRead client (d, w) = (None, (d', world_read_ok (id d) w))
    ∧ id d' = id d
    ∧ attrs d' !! "backend" = Some (VString b)
    ∧ (∀ key, key ∈ ["iam_alias"; "iam_metadata"; "ec2_alias"; "ec2_metadata"] →
              attrs d' !! key
              = match Data resp !! key with Some VNil | None => None | Some v => Some v end)
    ∧ (∀ key, key ∉ ["iam_alias"; "iam_metadata"; "ec2_alias"; "ec2_metadata"; "backend"] →
              attrs d' !! key = attrs d !! key).
Proof.
  intros Hb Hr. rewrite Read_cases, Hr.
  replace (MatchString re (id d)) with true
    by (symmetry; apply MatchString_conforms; eauto).
  rewrite (BackendFromPath_conforms _ _ Hb). cbn [fst].
  unfold mbind, Op_bind.
  destruct (Set_spec "iam_alias" (index (Data resp) "iam_alias") d (world_read_ok (id d) w))
    as (d1 & -> & I1 & L1).
  destruct (Set_spec "iam_metadata" (index (Data resp) "iam_metadata") d1
              (world_read_ok (id d) w)) as (d2 & -> & I2 & L2).
  destruct (Set_spec "ec2_alias" (index (Data resp) "ec2_alias") d2 (world_read_ok (id d) w))
    as (d3 & -> & I3 & L3).
  destruct (Set_spec "ec2_metadata" (index (Data resp) "ec2_metadata") d3
              (world_read_ok (id d) w)) as (d4 & -> & I4 & L4).
  destruct (Set_spec "backend" (VString b) d4 (world_read_ok (id d) w))
    as (d5 & -> & I5 & L5).
  exists d5. split; [reflexivity|]. split; [congruence|].
  split_and!.
  - rewrite L5. by rewrite decide_True.
  - intros key Hkey. rewrite L5, L4, L3, L2, L1. unfold index.
    set_unfold in Hkey.
    destruct Hkey as [->|[->|[->|[->|[]]]]];
      repeat case_decide; try done;
      by destruct (Data resp !! _) as [[]|].
  - intros key Hkey. rewrite L5, L4, L3, L2, L1.
    set_unfold in Hkey. repeat case_decide; naive_solver.
Qed.

(** X6: when the identifier matches the pattern and the remote read fails,
    [awsAuthBackendConfigIdentityRead] returns the error wrapped with the
    path; it has sent that one read, and the resource data is as it was. *)
Theorem read_remote_error client d w resp err :
  MatchString re (id d) = true →
  read_reply client (calls w) (id d) = (resp, Some err) →
  awsAuthBackendConfigIdentityRead client (d, w)
  = (Some (Errorf "error reading AWS auth backend identity config %q: %s"
             [ArgQ (id d); ArgS err]),
     (d, {| calls := calls w ++ [ReadCall (id d)];
            logs := logs w
                    ++ [("[DEBUG] Reading identity config %q from AWS auth backend",
                         [ArgQ (id d)])] |})).
Proof. intros Hm Hr. rewrite Read_cases, Hm, Hr. by destruct resp. Qed.

Lemma read_remote_error_witness :
  let d := data_defaults "auth/aws/config/identity" in
  awsAuthBackendConfigIdentityRead client_down (d, world0)
  = (Some (Errorf "error reading AWS auth backend identity config %q: %s"
             [ArgQ "auth/aws/config/identity"; ArgS (Errorf "connection refused" [])]),
     (d, {| calls := [ReadCall "auth/aws/config/identity"];
            logs := [("[DEBUG] Reading identity config %q from AWS auth backend",
                      [ArgQ "auth/aws/config/identity"])] |})).
Proof.
  intros d.
  apply (read_remote_error client_down d world0 None (Errorf "connection refused" []));
    reflexivity.
Defined.



(** X8: an error of [awsAuthBackendConfigIdentityRead] leaves the resource
    data as it was: the identifier and every attribute. *)
Theorem read_error_keeps_data client d w err :
  (awsAuthBackendConfigIdentityRead client (d, w)).1 = Some err →
  (awsAuthBackendConfigIdentityRead client (d, w)).2.1 = d.
Proof.
  rewrite Read_cases. destruct (MatchString re (id d)); [|done].
  by destruct (read_reply client (calls w) (id d)) as [[resp|] [e|]].
Qed.

Lemma read_error_keeps_data_witness :
  let d := data_defaults "auth/aws/config/identity" in
  (awsAuthBackendConfigIdentityRead client_down (d, world0)).2.1 = d.
Proof.
  intros d.
  apply (read_error_keeps_data client_down d world0
           (Errorf "error reading AWS auth backend identity config %q: %s"
              [ArgQ "auth/aws/config/identity"; ArgS (Errorf "connection refused" [])])).
  reflexivity.
Defined.

Lemma Read_frame client d w :
  let r := awsAuthBackendConfigIdentityRead client (d, w) in
  (calls r.2.2 = calls w ∨ calls r.2.2 = calls w ++ [ReadCall (id d)])
  ∧ (id r.2.1 = id d ∨ id r.2.1 = "").
Proof.
  cbn zeta. rewrite Read_cases. destruct (MatchString re (id d)) eqn:Hm; [|by auto].
  destruct (read_reply client (calls w) (id d)) as [[resp|] [e|]] eqn:Hr;
    cbn [fst snd calls id]; auto.
Qed.

(** X9: whatever the client answers, [awsAuthBackendConfigIdentityRead] sends
    at most one request, a read of the stored identifier, and never a write;
    the identifier it leaves is the one it found or the empty string. *)
Theorem read_frame client d w :
  let r := awsAuthBackendConfigIdentityRead client (d, w) in
  (calls r.2.2 = calls w ∨ calls r.2.2 = calls w ++ [ReadCall (id d)])
  ∧ (id r.2.1 = id d ∨ id r.2.1 = "").
Proof. apply Read_frame. Qed.

(** [awsAuthBackendConfigIdentityWrite], branch by branch. *)
Lemma Write_cases client d w path data :
  (awsAuthBackendConfigIdentityWrite_data (d, w)).1 = (path, data) →
  awsAuthBackendConfigIdentityWrite client (d, w)
  = match (write_reply client (calls w) path data).2 with
    | Some err =>
        (Some (Errorf "error configuring AWS auth identity config %q: %s"
                 [ArgQ path; ArgS err]),
         (d, world_write_sent path data w))
    | None =>
        awsAuthBackendConfigIdentityRead client
          ({| id := path; attrs := attrs d |}, world_written path data w)
    end.
Proof.
  intros Hd.
  destruct (awsAuthBackendConfigIdentityWrite_data (d, w)) as [pd st] eqn:Hpd.
  pose proof (write_data_pure d w) as Hst. rewrite Hpd in Hst.
  cbn [fst snd] in *. subst pd st.
  unfold awsAuthBackendConfigIdentityWrite, mbind, Op_bind; rewrite Hpd.
  unfold logPrintf, LogicalWrite, SetId, mret, Op_ret; cbn [calls logs].
  by destruct (write_reply client (calls w) path data) as [resp [err|]].
Qed.

Lemma Write_data_path d w :
  (awsAuthBackendConfigIdentityWrite_data (d, w)).1.1
  = awsAuthBackendConfigIdentityPath (as_string (Get "backend" d)).
Proof. reflexivity. Qed.

(** X10: when the path built from the configured backend does not match the
    path pattern (the backend is empty once trimmed, or holds a newline) and
    the remote write succeeds, [awsAuthBackendConfigIdentityWrite] returns
    the error about the invalid path although the write was sent and
    acknowledged; the identifier is left set to that path, and no read is
    sent. *)
Theorem write_unparseable_path client d w path data resp :
  (awsAuthBackendConfigIdentityWrite_data (d, w)).1 = (path, data) →
  MatchString re path = false →
  write_reply client (calls w) path data = (resp, None) →
  awsAuthBackendConfigIdentityWrite client (d, w)
  = (Some (Errorf "invalid path %q for AWS auth identity config:  %s"
             [ArgQ path; ArgS (Errorf "no backend found" [])]),
     ({| id := path; attrs := attrs d |}, world_written path data w)).
Proof.
  intros Hd Hm Hw. rewrite (Write_cases _ _ _ _ _ Hd), Hw. cbn [snd].
  rewrite Read_cases. cbn [id]. by rewrite Hm.
Qed.

Lemma write_unparseable_path_witness :
  let data : gmap string Value :=
    {[ "iam_alias" := VString "role_id"; "iam_metadata" := VStrings [];
       "ec2_alias" := VString "role_id"; "ec2_metadata" := VStrings [] ]} in
  awsAuthBackendConfigIdentityWrite client_empty (data_slash, world0)
  = (Some (Errorf "invalid path %q for AWS auth identity config:  %s"
             [ArgQ "auth//config/identity"; ArgS (Errorf "no backend found" [])]),
     ({| id := "auth//config/identity"; attrs := attrs data_slash |},
      world_written "auth//config/identity" data world0)).
Proof.
  intros data.
  apply (write_unparseable_path client_empty data_slash world0
           "auth//config/identity" data None); reflexivity.
Defined.

(** X11: when the path built from the configured backend matches the pattern,
    the remote write succeeds and the read that follows finds a payload,
    [awsAuthBackendConfigIdentityWrite] returns nil; it has sent the write
    and then the read, to the same path; the identifier is that path, the
    attribute [backend] is the configured backend trimmed of its slashes,
    and the path built from the stored attribute is the identifier. *)
Theorem write_then_read_found client d w path data resp payload :
  (awsAuthBackendConfigIdentityWrite_data (d, w)).1 = (path, data) →
  MatchString re path = true →
  write_reply client (calls w) path data = (resp, None) →
  read_reply client (calls w ++ [WriteCall path data]) path = (Some payload, None) →
  ∃ d' w',
    awsAuthBackendConfigIdentityWrite client (d, w) = (None, (d', w'))
    ∧ calls w' = calls w ++ [WriteCall path data; ReadCall path]
    ∧ id d' = path
    ∧ attrs d' !! "backend" = Some (VString (Trim (as_string (Get "backend" d)) "/"))
    ∧ awsAuthBackendConfigIdentityPath (as_string (Get "backend" d')) = id d'.
Proof.
  intros Hd Hm Hw Hr. rewrite (Write_cases _ _ _ _ _ Hd), Hw. cbn [snd].
  apply MatchString_conforms in Hm as [b Hb].
  pose proof (Write_data_path d w) as Hp. rewrite Hd in Hp. cbn [fst] in Hp.
  assert (b = Trim (as_string (Get "backend" d)) "/") as Hbt.
  { destruct Hb as (Hb & _). rewrite Hp in Hb.
    apply (inj (String.app "auth/")) in Hb. by apply str_app_inv_tail in Hb. }
  destruct (Read_found client {| id := path; attrs := attrs d |}
              (world_written path data w) b payload Hb Hr)
    as (d' & -> & Hid & Hbackend & _).
  exists d', (world_read_ok path (world_written path data w)).
  split_and!; [done | by cbn; rewrite <-app_assoc | done | by rewrite Hbackend, Hbt |].
  unfold Get. cbn [id] in Hid. rewrite Hid.
  change (awsAuthBackendConfigIdentitySchema !! "backend")
    with (Some {| Type_ := TypeString; Optional := true; Default := Some (VString "aws");
                  ForceNew := true; StringInSlice := None;
                  StateFunc := Some (λ v, Trim v "/") |}).
  rewrite Hbackend. cbn [Type_ has_type as_string].
  by rewrite Hbt, Path_Trim.
Qed.

Lemma write_then_read_found_witness :
  let d := {| id := "";
              attrs := {[ "backend" := VString "/aws/"; "iam_alias" := VString "unique_id" ]} |} in
  let data : gmap string Value :=
    {[ "iam_alias" := VString "unique_id"; "iam_metadata" := VStrings [];
       "ec2_alias" := VString ""; "ec2_metadata" := VStrings [] ]} in
  ∃ d' w',
    awsAuthBackendConfigIdentityWrite client_found (d, world0) = (None, (d', w'))
    ∧ calls w' = [WriteCall "auth/aws/config/identity" data;
                  ReadCall "auth/aws/config/identity"]
    ∧ id d' = "auth/aws/config/identity"
    ∧ attrs d' !! "backend" = Some (VString "aws")
    ∧ awsAuthBackendConfigIdentityPath (as_string (Get "backend" d')) = id d'.
Proof.
  intros d data.
  apply (write_then_read_found client_found d world0 "auth/aws/config/identity" data None
           {| Data := {[ "iam_alias" := VString "unique_id";
                         "iam_metadata" := VStrings ["account_id"];
                         "ec2_alias" := VString "role_id";
                         "backend" := VString "elsewhere" ]} |}); reflexivity.
Defined.

(** X12: when the remote write succeeds and the read that follows finds
    nothing, [awsAuthBackendConfigIdentityWrite] returns nil with the
    identifier empty: the resource just written is dropped from the state. *)
Theorem write_then_read_absent client d w path data resp :
  (awsAuthBackendConfigIdentityWrite_data (d, w)).1 = (path, data) →
  MatchString re path = true →
  write_reply client (calls w) path data = (resp, None) →
  read_reply client (calls w ++ [WriteCall path data]) path = (None, None) →
  ∃ w',
    awsAuthBackendConfigIdentityWrite client (d, w)
    = (None, ({| id := ""; attrs := attrs d |}, w'))
    ∧ calls w' = calls w ++ [WriteCall path data; ReadCall path].
Proof.
  intros Hd Hm Hw Hr. rewrite (Write_cases _ _ _ _ _ Hd), Hw. cbn [snd].
  rewrite Read_cases. cbn [id calls world_written world_write_sent].
  rewrite Hm, Hr. eexists. split; [reflexivity|]. cbn. by rewrite <-app_assoc.
Qed.

Lemma write_then_read_absent_witness :
  let d := data_defaults "" in
  let data : gmap string Value :=
    {[ "iam_alias" := VString "role_id"; "iam_metadata" := VStrings [];
       "ec2_alias" := VString "role_id"; "ec2_metadata" := VStrings [] ]} in
  ∃ w',
    awsAuthBackendConfigIdentityWrite client_empty (d, world0)
    = (None, ({| id := ""; attrs := attrs d |}, w'))
    ∧ calls w' = [WriteCall "auth/aws/config/identity" data;
                  ReadCall "auth/aws/config/identity"].
Proof.
  intros d data.
  apply (write_then_read_absent client_empty d world0 "auth/aws/config/identity" data None);
    reflexivity.
Defined.

(** X13: whatever the client answers, [awsAuthBackendConfigIdentityWrite]
    sends the write of its payload first and at most one more request, a
    read of the same path; the identifier it leaves is the one it found, the
    path, or the empty string. *)
Theorem write_frame client d w :
  let '(path, data) := (awsAuthBackendConfigIdentityWrite_data (d, w)).1 in
  let r := awsAuthBackendConfigIdentityWrite client (d, w) in
  (calls r.2.2 = calls w ++ [WriteCall path data]
   ∨ calls r.2.2 = calls w ++ [WriteCall path data; ReadCall path])
  ∧ (id r.2.1 = id d ∨ id r.2.1 = path ∨ id r.2.1 = "").
Proof.
  destruct (awsAuthBackendConfigIdentityWrite_data (d, w)).1 as [path data] eqn:Hd.
  cbn zeta. rewrite (Write_cases _ _ _ _ _ Hd).
  destruct (write_reply client (calls w) path data).2 as [err|]; [by auto|].
  destruct (Read_frame client {| id := path; attrs := attrs d |} (world_written path data w))
    as [Hc Hi].
  cbn [id calls world_written world_write_sent] in Hc, Hi.
  rewrite <-!app_assoc in Hc. cbn [app] in Hc. split; [exact Hc | tauto].
Qed.

(** X14: whatever the identifier and whatever the client answers,
    [awsAuthBackendConfigIdentityExists] sends exactly one request, a read of
    the stored identifier, also when the identifier does not match the path
    pattern; it leaves the resource data as it was; it answers [false] only
    when the remote end gave a nil payload and no error, and returns an
    error exactly when the read gave one. *)
Theorem exists_frame client d w :
  let r := awsAuthBackendConfigIdentityExists client (d, w) in
  r.2.1 = d
  ∧ calls r.2.2 = calls w ++ [ReadCall (id d)]
  ∧ (r.1.1 = false ↔ read_reply client (calls w) (id d) = (None, None))
  ∧ (r.1.2 = None ↔ (read_reply client (calls w) (id d)).2 = None).
Proof.
  unfold awsAuthBackendConfigIdentityExists, mbind, Op_bind, Id; cbn.
  destruct (read_reply client (calls w) (id d)) as [[resp|] [err|]]; cbn;
    split_and!; try done; split; done.
Qed.

(** X15: after [awsAuthBackendConfigIdentityDelete] the remote end is asked
    and answers as before: [awsAuthBackendConfigIdentityExists] and
    [awsAuthBackendConfigIdentityRead] return what they would have returned
    without the delete, and the read leaves the same resource data. *)
Theorem delete_then_same_answers client d w :
  let st := (awsAuthBackendConfigIdentityDelete client (d, w)).2 in
  (awsAuthBackendConfigIdentityExists client st).1
  = (awsAuthBackendConfigIdentityExists client (d, w)).1
  ∧ (awsAuthBackendConfigIdentityRead client st).1
    = (awsAuthBackendConfigIdentityRead client (d, w)).1
  ∧ (awsAuthBackendConfigIdentityRead client st).2.1
    = (awsAuthBackendConfigIdentityRead client (d, w)).2.1.
Proof.
  cbn zeta.
  change (awsAuthBackendConfigIdentityDelete client (d, w)).2
    with (d, {| calls := calls w;
                logs := logs w ++ [("[DEBUG] Deleting AWS identity config from state file",
                                    [] : list (Arg error))] |}).
  split.
  - unfold awsAuthBackendConfigIdentityExists, mbind, Op_bind, Id; cbn.
    by destruct (read_reply client (calls w) (id d)) as [resp [err|]].
  - rewrite !Read_cases. cbn [calls].
    destruct (MatchString re (id d)); [|done].
    by destruct (read_reply client (calls w) (id d)) as [[resp|] [err|]].
Qed.

(** X16: on an identifier that matches the path pattern,
    [awsAuthBackendConfigIdentityExists] answers [true] exactly when
    [awsAuthBackendConfigIdentityRead], given the same reply, keeps the
    identifier. *)
Theorem exists_iff_read_keeps_id client d w :
  MatchString re (id d) = true →
  (awsAuthBackendConfigIdentityExists client (d, w)).1.1 = true
  ↔ id (awsAuthBackendConfigIdentityRead client (d, w)).2.1 = id d.
Proof.
  intros Hm. rewrite Read_cases, Hm.
  apply MatchString_conforms in Hm as [b (Hp & _)].
  unfold awsAuthBackendConfigIdentityExists, mbind, Op_bind, Id; cbn.
  destruct (read_reply client (calls w) (id d)) as [[resp|] [err|]]; cbn; try done.
  split; [done|]. rewrite Hp. discriminate.
Qed.

Lemma exists_iff_read_keeps_id_witness :
  let d := data_defaults "auth/aws/config/identity" in
  (awsAuthBackendConfigIdentityExists client_found (d, world0)).1.1 = true
  ↔ id (awsAuthBackendConfigIdentityRead client_found (d, world0)).2.1 = id d.
Proof.
  intros d. apply (exists_iff_read_keeps_id client_found d world0). reflexivity.
Defined.



End callbacks_more.

(** ** The destroy check *)

Section destroy_check_props.
Variable identityEntityAliasIDPath : string → string.
Implicit Types (client : Client) (w : World) (rs : ResourceState)
  (resources : list ResourceState).

Local Abbreviation check := (testAccCheckIdentityEntityAliasDestroy identityEntityAliasIDPath).

(** The read that the check sends for an alias resource. *)
Local Abbreviation read_of := (λ rs, ReadCall (identityEntityAliasIDPath (Primary_ID rs))).

Lemma check_cons client rs resources w :
  check client (rs :: resources) w
  = if is_alias rs then
      let path := identityEntityAliasIDPath (Primary_ID rs) in
      let w' := {| calls := calls w ++ [ReadCall path]; logs := logs w |} in
      match read_reply client (calls w) path with
      | (_, Some err) =>
          (Some (Errorf "error checking for identity entity %q: %s"
                   [ArgQ (Primary_ID rs); ArgS err]), w')
      | (Some _, None) =>
          (Some (Errorf "identity entity role %q still exists" [ArgQ (Primary_ID rs)]), w')
      | (None, None) => check client resources w'
      end
    else check client resources w.
Proof.
  cbn [testAccCheckIdentityEntityAliasDestroy]. unfold is_alias.
  destruct (String.eqb (rs_Type rs) "vault_identity_entity_alias"); cbn [negb]; [|done].
  by destruct (read_reply client (calls w) _) as [[secret|] [err|]].
Qed.

(** X17: the destroy check looks at the alias resources only: resources of
    any other type can be taken out of the state without changing its result
    or the requests it sends. *)
Theorem destroy_check_other_types client resources w :
  check client resources w = check client (List.filter is_alias resources) w.
Proof.
  revert w. induction resources as [|rs resources IH]; intros w; [done|].
  rewrite check_cons. cbn [List.filter].
  destruct (is_alias rs) eqn:Ha; [|apply IH].
  rewrite check_cons, Ha. cbn zeta.
  by destruct (read_reply client (calls w) _) as [[secret|] [err|]].
Qed.

(** X18: the destroy check sends reads only, those of the alias resources in
    the order of the state and with none left out in between, and writes
    nothing to the log; when it passes it has read every alias resource. *)
Theorem destroy_check_reads client resources w :
  let r := check client resources w in
  (∃ n, calls r.2 = calls w ++ take n (read_of <$> List.filter is_alias resources))
  ∧ logs r.2 = logs w
  ∧ (r.1 = None → calls r.2 = calls w ++ (read_of <$> List.filter is_alias resources)).
Proof.
  cbn zeta. revert w. induction resources as [|rs resources IH]; intros w.
  - cbn. split_and!; [exists 0|..]; by rewrite ?app_nil_r.
  - rewrite check_cons. cbn [List.filter].
    destruct (is_alias rs) eqn:Ha; [|apply IH]. cbn zeta. cbn [fmap list_fmap].
    destruct (read_reply client (calls w) _) as [[secret|] [err|]];
      try (split_and!; [by exists 1; cbn; rewrite take_0 | done | done]).
    destruct (IH {| calls := calls w ++ [ReadCall (identityEntityAliasIDPath (Primary_ID rs))];
                    logs := logs w |}) as ([n Hn] & Hl & Hall).
    cbn [calls logs] in Hn, Hl, Hall. split_and!.
    + exists (S n). rewrite Hn, <-app_assoc. done.
    + done.
    + intros Hnone. rewrite (Hall Hnone), <-app_assoc. done.
Qed.

(** X19: against a client whose answers to reads do not depend on the
    requests sent before, the destroy check passes exactly when the read of
    every alias resource of the state gives a nil payload and no error. *)
Theorem destroy_check_passes_iff client resources w :
  read_stable client →
  (check client resources w).1 = None
  ↔ ∀ rs, rs ∈ resources → is_alias rs = true →
          read_reply client [] (identityEntityAliasIDPath (Primary_ID rs)) = (None, None).
Proof.
  intros Hstable. revert w. induction resources as [|rs resources IH]; intros w.
  - split; [|done]. intros _ rs Hin. by apply elem_of_nil in Hin.
  - rewrite check_cons. destruct (is_alias rs) eqn:Ha.
    + cbn zeta. rewrite Hstable.
      destruct (read_reply client [] (identityEntityAliasIDPath (Primary_ID rs)))
        as [[secret|] [err|]] eqn:Hr.
      * split; [done|]. intros H. specialize (H rs (list_elem_of_here _ _) Ha). congruence.
      * split; [done|]. intros H. specialize (H rs (list_elem_of_here _ _) Ha). congruence.
      * split; [done|]. intros H. specialize (H rs (list_elem_of_here _ _) Ha). congruence.
      * rewrite IH. split.
        -- intros H rs' Hin Ha'. apply elem_of_cons in Hin as [->|Hin]; [done|by apply H].
        -- intros H rs' Hin Ha'. apply H; [by apply list_elem_of_further | done].
    + rewrite IH. split.
      * intros H rs' Hin Ha'. apply elem_of_cons in Hin as [->|Hin]; [congruence|by apply H].
      * intros H rs' Hin Ha'. apply H; [by apply list_elem_of_further | done].
Qed.

(** X20: against such a client, the error of the destroy check is about the
    first alias resource whose read does not give a nil payload with no
    error: the wrapped error of the read when the read failed, and "still
    exists" when it found a payload. *)
Theorem destroy_check_first_failure client before rs after w :
  read_stable client →
  (∀ rs', rs' ∈ before → is_alias rs' = true →
          read_reply client [] (identityEntityAliasIDPath (Primary_ID rs')) = (None, None)) →
  is_alias rs = true →
  read_reply client [] (identityEntityAliasIDPath (Primary_ID rs)) ≠ (None, None) →
  (check client (before ++ rs :: after) w).1
  = Some match (read_reply client [] (identityEntityAliasIDPath (Primary_ID rs))).2 with
         | Some err =>
             Errorf "error checking for identity entity %q: %s"
               [ArgQ (Primary_ID rs); ArgS err]
         | None => Errorf "identity entity role %q still exists" [ArgQ (Primary_ID rs)]
         end.
Proof.
  intros Hstable Hbefore Ha Hr. revert w.
  induction before as [|rs' before IH]; intros w.
  - cbn [app]. rewrite check_cons, Ha. cbn zeta. rewrite Hstable.
    by destruct (read_reply client [] _) as [[secret|] [err|]].
  - cbn [app]. rewrite check_cons. destruct (is_alias rs') eqn:Ha'.
    + cbn zeta. rewrite Hstable, (Hbefore rs' (list_elem_of_here _ _) Ha').
      apply IH. intros x Hx. apply Hbefore. by apply list_elem_of_further.
    + apply IH. intros x Hx. apply Hbefore. by apply list_elem_of_further.
Qed.

End destroy_check_props.

Lemma read_stable_const secret err write :
  read_stable {| read_reply := λ _ _, (secret, err); write_reply := write |}.
Proof. by intros h path. Qed.

Lemma destroy_check_passes_iff_witness :
  (testAccCheckIdentityEntityAliasDestroy sample_alias_path client_empty
     sample_resources world0).1 = None
  ↔ ∀ rs, rs ∈ sample_resources → is_alias rs = true →
          read_reply client_empty [] (sample_alias_path (Primary_ID rs)) = (None, None).
Proof.
  apply (destroy_check_passes_iff sample_alias_path client_empty sample_resources world0).
  apply read_stable_const.
Defined.

Lemma destroy_check_first_failure_witness :
  (testAccCheckIdentityEntityAliasDestroy sample_alias_path client_found
     sample_resources world0).1
  = Some (Errorf "identity entity role %q still exists" [ArgQ "alias-1"]).
Proof.
  apply (destroy_check_first_failure sample_alias_path client_found
           [ {| rs_Type := "vault_identity_entity"; Primary_ID := "entity-1" |};
             {| rs_Type := "vault_auth_backend"; Primary_ID := "githubA-1" |} ]
           {| rs_Type := "vault_identity_entity_alias"; Primary_ID := "alias-1" |}
           [] world0).
  - apply read_stable_const.
  - intros rs Hin Ha. set_unfold in Hin. by destruct Hin as [->|[->|[]]].
  - reflexivity.
  - discriminate.
Defined.

(** ** The path builder, in full *)

Section path_builder.
Implicit Types (s cutset : string).

Lemma TrimLeft_split s cutset :
  ∃ l, s = l +:+ TrimLeft s cutset ∧ only_bytes cutset l = true.
Proof.
  induction s as [|c s (l & Hs & Hl)]; [by exists ""|]. cbn [TrimLeft].
  destruct (in_cutset cutset c) eqn:Hc; [|by exists ""].
  exists (String c l). rewrite str_app_cons, <-Hs. split; [done|].
  cbn [only_bytes]. by rewrite Hc, Hl.
Qed.

Lemma TrimRight_split s cutset :
  ∃ r, s = TrimRight s cutset +:+ r ∧ only_bytes cutset r = true.
Proof.
  induction s as [|c s (r & Hs & Hr)]; [by exists ""|]. cbn [TrimRight].
  destruct (TrimRight s cutset) as [|a t] eqn:Ht.
  - rewrite str_app_empty_l in Hs. subst r.
    destruct (in_cutset cutset c) eqn:Hc.
    + exists (String c s). split; [done|]. cbn [only_bytes]. by rewrite Hc, Hr.
    + by exists s.
  - exists r. rewrite str_app_cons, <-Hs. done.
Qed.

(** X22: the path built for a backend name is [auth/], the name without the
    slashes it begins and ends with, and [/config/identity]: the name is
    some slashes, a part that neither begins nor ends with a slash, and some
    slashes, and that part is what goes into the path. *)
Theorem path_of_backend_spec (backend : string) :
  ∃ l x r,
    backend = l +:+ x +:+ r
    ∧ only_bytes "/" l = true ∧ only_bytes "/" r = true
    ∧ first_byte x ≠ Some "/"%char ∧ last_byte x ≠ Some "/"%char
    ∧ awsAuthBackendConfigIdentityPath backend = "auth/" +:+ x +:+ "/config/identity".
Proof.
  destruct (TrimRight_split backend "/") as (r & Hb & Hr).
  destruct (TrimLeft_split (TrimRight backend "/") "/") as (l & Ht & Hl).
  exists l, (Trim backend "/"), r.
  pose proof (proj1 (Trim_fixed (Trim backend "/") "/") (Trim_idemp backend "/")) as [Hf Hla].
  split_and!; try done.
  - unfold Trim. by rewrite <-str_app_assoc, <-Ht.
  - intros H. by apply Hf, in_cutset_slash in H.
  - intros H. by apply Hla, in_cutset_slash in H.
Qed.

End path_builder.

(** ** Reading twice *)

Section read_twice.
Implicit Types (client : Client) (d : ResourceData) (w : World).

Lemma ResourceData_eq d1 d2 :
  id d1 = id d2 → (∀ key, attrs d1 !! key = attrs d2 !! key) → d1 = d2.
Proof.
  destruct d1 as [i1 a1], d2 as [i2 a2]; cbn. intros -> H. f_equal. by apply map_eq.
Qed.

(** X23: against a client whose answers to reads do not depend on the
    requests sent before, a read that found the configuration can be run
    again and changes nothing more: the second
    [awsAuthBackendConfigIdentityRead] returns nil and leaves the resource
    data that the first one left. *)
Theorem read_again_same_data client d w b resp :
  conforms (id d) b →
  read_stable client →
  read_reply client [] (id d) = (Some resp, None) →
  let st := (awsAuthBackendConfigIdentityRead client (d, w)).2 in
  (awsAuthBackendConfigIdentityRead client st).1 = None
  ∧ (awsAuthBackendConfigIdentityRead client st).2.1 = st.1.
Proof.
  intros Hb Hstable Hr. cbn zeta.
  assert (read_reply client (calls w) (id d) = (Some resp, None)) as Hr1
    by (by rewrite Hstable).
  destruct (Read_found client d w b resp Hb Hr1) as (d1 & -> & Hid1 & Hb1 & Hk1 & Ho1).
  cbn [fst snd].
  assert (conforms (id d1) b) as Hb' by (by rewrite Hid1).
  assert (read_reply client (calls (world_read_ok (id d) w)) (id d1) = (Some resp, None))
    as Hr2 by (by rewrite Hstable, Hid1).
  destruct (Read_found client d1 _ b resp Hb' Hr2) as (d2 & -> & Hid2 & Hb2 & Hk2 & Ho2).
  cbn [fst snd]. split; [done|].
  apply ResourceData_eq; [done|]. intros key.
  destruct (decide (key = "backend")) as [->|Hne]; [congruence|].
  destruct (decide (key ∈ ["iam_alias"; "iam_metadata"; "ec2_alias"; "ec2_metadata"]))
    as [Hin|Hnin].
  - by rewrite (Hk1 key Hin), (Hk2 key Hin).
  - apply Ho2. set_unfold. set_unfold in Hnin. intuition congruence.
Qed.

Lemma read_again_same_data_witness :
  let d := data_defaults "auth/aws/config/identity" in
  let st := (awsAuthBackendConfigIdentityRead client_found (d, world0)).2 in
  (awsAuthBackendConfigIdentityRead client_found st).1 = None
  ∧ (awsAuthBackendConfigIdentityRead client_found st).2.1 = st.1.
Proof.
  intros d.
  apply (read_again_same_data client_found d world0 "aws"
           {| Data := {[ "iam_alias" := VString "unique_id";
                         "iam_metadata" := VStrings ["account_id"];
                         "ec2_alias" := VString "role_id";
                         "backend" := VString "elsewhere" ]} |}).
  - split_and!; [reflexivity | discriminate | reflexivity].
  - apply read_stable_const.
  - reflexivity.
Defined.

End read_twice.
